(** * Secret stream (XChaCha20-Poly1305) encoder and decoder of secretstream.go

    A shallow embedding of the Go wrapper around libsodium's
    crypto_secretstream_xchacha20poly1305 API.  The C primitive is an
    interface ([Sodium]); the wrapped [io.Writer] and [io.Reader] are
    interfaces too ([Writer], [Reader]).  Mutation through a pointer
    receiver is explicit state passing: every method returns the receiver
    after the call next to its Go results. *)

From Stdlib Require Import List ZArith Lia Bool Arith.
Import ListNotations.

Set Implicit Arguments.

(** ** Bytes and buffers *)

(** A Go [[]byte]; each byte is an 8-bit value kept in [Z]. *)
Definition Bytes := list Z.

(** [make([]byte, n)]: a zeroed buffer. *)
Definition make (n : nat) : Bytes := repeat 0%Z n.

(** Storing [data] at the start of the buffer [buf]: the bytes after the
    stored prefix stay as they were and the buffer keeps its length. *)
Definition fill (buf data : Bytes) : Bytes :=
  firstn (length buf) data ++ skipn (length data) buf.

(** ** Errors of the package and of io *)

Inductive error : Type :=
| ErrInvalidState
| ErrUnknown
| ErrDecryptSS
| ErrInvalidHeader
| EOF
| ErrIO (code : nat).

(** ** io.Writer and io.Reader *)

(** [Write(p)] returns the count, the error and the writer afterwards. *)
Class Writer (W : Type) : Type :=
  io_Write : W -> Bytes -> nat * option error * W.

(** [Read(p)] sees only [len(p)]; it returns the bytes it stored at the
    start of [p], the error and the reader afterwards. *)
Class Reader (R : Type) : Type :=
  io_Read : R -> nat -> Bytes * option error * R.

(** An in-memory sink in the manner of bytes.Buffer: every [Write] is
    kept, in order, and taken whole. *)
Record BufferWriter : Type := { written : list Bytes }.

#[export] Instance BufferWriter_Writer : Writer BufferWriter :=
  fun w p => (length p, None, {| written := written w ++ [p] |}).

(** A source that hands out its pending chunks: one [Read] takes bytes
    from the first pending chunk only (a short read when the chunk is
    shorter than [p]), keeps what does not fit for the next [Read], and
    answers [0, io.EOF] once nothing is pending. *)
Record ChunkReader : Type := { pending : list Bytes }.

#[export] Instance ChunkReader_Reader : Reader ChunkReader :=
  fun r n =>
    match pending r with
    | [] => ([], Some EOF, r)
    | ch :: rest =>
        (firstn n ch, None,
         {| pending := match skipn n ch with
                       | [] => rest
                       | tl => tl :: rest
                       end |})
    end.

(** ** The libsodium secretstream interface *)

Record push_result (St : Type) : Type :=
  { push_rc : Z; push_state : St; push_c : Bytes }.

Record pull_result (St : Type) : Type :=
  { pull_rc : Z; pull_state : St; pull_m : Bytes; pull_tag : option Z }.

(** The constants and calls of crypto_secretstream_xchacha20poly1305.
    [pull] receives the buffer and [inlen] as the C call does; its tag
    output is [None] when the call leaves [*tag_p] as it found it. *)
Class Sodium : Type :=
  { State : Type;
    keybytes : nat;
    headerbytes : nat;
    abytes : nat;
    tag_message : Z;
    tag_push : Z;
    tag_rekey : Z;
    tag_final : Z;
    init_push : Bytes -> Z * State * Bytes;
    init_pull : Bytes -> Bytes -> Z * State;
    push : State -> Bytes -> Bytes -> Z -> push_result State;
    pull : State -> Bytes -> nat -> Bytes -> pull_result State }.

(** How a call ends: it returns, it panics, or the model ran out of the
    fuel that bounds its loop. *)
Inductive run (A : Type) : Type :=
| Done (a : A)
| Panics
| OutOfFuel.
Arguments Panics {A}.
Arguments OutOfFuel {A}.

(** ** The typed byte containers *)

Section Typed.
Context {sodium : Sodium}.

(** [SecretStreamXCPKey] and [SecretStreamXCPHeader], both [struct
    { Bytes }], behind the interface the size check takes. *)
Inductive Typed : Type :=
| SecretStreamXCPKey (b : Bytes)
| SecretStreamXCPHeader (b : Bytes).

Definition Size (t : Typed) : nat :=
  match t with
  | SecretStreamXCPKey _ => keybytes
  | SecretStreamXCPHeader _ => headerbytes
  end.

Definition Length (t : Typed) : nat :=
  match t with
  | SecretStreamXCPKey b | SecretStreamXCPHeader b => length b
  end.

(** Modelled from the spec: checkTypedSize, the size validation both
    constructors call first, is not among the sources.  The spec:
    "Key size and Header size are protocol constants; constructors
    reject any other length".  Both constructors call it as a
    statement and use no result of it, so all it can do to reject is
    panic. *)
Definition checkTypedSize (t : Typed) : run unit :=
  if Nat.eqb (Length t) (Size t) then Done tt else Panics.
End Typed.

(** ** SecretStreamTag *)

(** [type SecretStreamTag uint8] with its three constants. *)
Definition SecretStreamTag := Z.
Definition SecretStreamTag_Message : SecretStreamTag := 0%Z.
Definition SecretStreamTag_Sync : SecretStreamTag := 1%Z.
Definition SecretStreamTag_Rekey : SecretStreamTag := 2%Z.

Section Tags.
Context {sodium : Sodium}.

(** The tag stored by [(tag *SecretStreamTag) fromCtag(ctag)]. *)
Definition fromCtag (ctag : Z) : SecretStreamTag :=
  if (ctag =? tag_push)%Z then SecretStreamTag_Sync
  else if (ctag =? tag_rekey)%Z then SecretStreamTag_Rekey
  else SecretStreamTag_Message.

Definition toCtag (tag : SecretStreamTag) : Z :=
  if (tag =? SecretStreamTag_Sync)%Z then tag_push
  else if (tag =? SecretStreamTag_Rekey)%Z then tag_rekey
  else tag_message.
End Tags.

(** ** SecretStreamXCPEncoder *)

Module Encoder.
Section Encoder.
Context {sodium : Sodium} {W : Type} {writer : Writer W}.

Record T : Type :=
  { out : W;
    header : Bytes;
    state : State;
    ad : Bytes;
    tag : SecretStreamTag;
    final : bool }.

Definition Header (e : T) : Bytes := header e.

Definition SetAdditionData (e : T) (a : Bytes) : T :=
  {| out := out e; header := header e; state := state e;
     ad := a; tag := tag e; final := final e |}.

Definition SetTag (e : T) (t : SecretStreamTag) : T :=
  {| out := out e; header := header e; state := state e;
     ad := ad e; tag := t; final := final e |}.

(** The part shared by the three sealing methods: seal [m] into a
    fresh buffer of [len(m) + abytes] bytes under the pending
    associated data; the state is advanced in place whatever the
    return code is. *)
Definition seal (e : T) (m : Bytes) (ctag : Z) : Z * Bytes * T :=
  let c := make (length m + abytes) in
  let r := push (state e) m (ad e) ctag in
  (push_rc r, fill c (push_c r),
   {| out := out e; header := header e; state := push_state r;
      ad := ad e; tag := tag e; final := final e |}).

(** [e.out.Write(c)], then the terminal flag set to [fin]. *)
Definition emit (e : T) (c : Bytes) (fin : bool) : nat * option error * T :=
  let '(n, err, w) := io_Write (out e) c in
  (n, err,
   {| out := w; header := header e; state := state e;
      ad := ad e; tag := tag e; final := fin |}).

Definition Write (e : T) (b : Bytes) : nat * option error * T :=
  if final e then (0, Some ErrInvalidState, e)
  else
    let '(rc, c, e1) := seal e b (toCtag (tag e)) in
    if negb (rc =? 0)%Z then (0, Some ErrUnknown, e1)
    else emit e1 c (final e1).

Definition WriteAndClose (e : T) (b : Bytes) : nat * option error * T :=
  if final e then (0, Some ErrInvalidState, e)
  else
    let '(rc, c, e1) := seal e b tag_final in
    if negb (rc =? 0)%Z then (0, Some ErrUnknown, e1)
    else emit e1 c true.

(** [Close] has no test of the terminal flag. *)
Definition Close (e : T) : option error * T :=
  let '(rc, mac, e1) := seal e [] tag_final in
  if negb (rc =? 0)%Z then (Some ErrUnknown, e1)
  else let '(_, err, e2) := emit e1 mac true in (err, e2).

(** [MakeSecretStreamXCPEncoder].  It has no error result: a rejected
    key and a failing init_push are panics, and so is taking the
    address of the first byte of an empty header or key. *)
Definition MakeSecretStreamXCPEncoder (key : Bytes) (o : W) : run T :=
  match checkTypedSize (SecretStreamXCPKey key) with
  | Panics => Panics
  | OutOfFuel => OutOfFuel
  | Done _ =>
      let h := make headerbytes in
      match h, key with
      | [], _ | _, [] => Panics
      | _, _ =>
          let '(rc, st, hdr) := init_push key in
          if negb (rc =? 0)%Z then Panics
          else Done {| out := o; header := fill h hdr; state := st;
                       ad := []; tag := SecretStreamTag_Message;
                       final := false |}
      end
  end.
End Encoder.
End Encoder.

(** ** SecretStreamXCPDecoder *)

Module Decoder.
Section Decoder.
Context {sodium : Sodium} {R : Type}.

Record T : Type :=
  { in_ : R;
    state : State;
    ad : Bytes;
    tag : SecretStreamTag;
    final : bool }.

Definition SetAdditionData (e : T) (a : Bytes) : T :=
  {| in_ := in_ e; state := state e; ad := a; tag := tag e;
     final := final e |}.

Definition Tag (e : T) : SecretStreamTag := tag e.

(** The body of [MakeSecretStreamXCPDecoder], with the size check it
    calls as [check]: the check of the key and the check of the header
    are statements, so each either returns or panics and nothing it
    returns is used; then init_pull, whose non-zero return code is the
    one place that returns ErrInvalidHeader.  Taking the address of
    the first byte of an empty header or key panics.  The source never
    calls [in.Read] here, so no [Reader] is in scope yet. *)
Definition MakeSecretStreamXCPDecoderWith
           (check : Typed -> run unit) (key : Bytes) (i : R) (hdr : Bytes)
  : run (option T * option error) :=
  match check (SecretStreamXCPKey key) with
  | Panics => Panics
  | OutOfFuel => OutOfFuel
  | Done _ =>
      match check (SecretStreamXCPHeader hdr) with
      | Panics => Panics
      | OutOfFuel => OutOfFuel
      | Done _ =>
          match hdr, key with
          | [], _ | _, [] => Panics
          | _, _ =>
              let '(rc, st) := init_pull hdr key in
              if negb (rc =? 0)%Z then Done (None, Some ErrInvalidHeader)
              else Done (Some {| in_ := i; state := st; ad := [];
                                 tag := SecretStreamTag_Message;
                                 final := false |}, None)
          end
      end
  end.

(** [MakeSecretStreamXCPDecoder]: that body with [checkTypedSize]. *)
Definition MakeSecretStreamXCPDecoder (key : Bytes) (i : R) (hdr : Bytes)
  : run (option T * option error) :=
  MakeSecretStreamXCPDecoderWith checkTypedSize key i hdr.

Context {reader : Reader R}.

(** [e.in.Read(p)] for a [p] of [n] bytes: the bytes stored at the
    start of [p] (no more than [n]), the error, the reader after. *)
Definition readInto (r : R) (n : nat) : Bytes * option error * R :=
  let '(data, err, r') := io_Read r n in (firstn n data, err, r').

(** The scratch frame while it is assembled: the source, the buffer
    [c], the count [l] and the last error of the source. *)
Record frame : Type :=
  { f_in : R; f_c : Bytes; f_l : nat; f_err : option error }.

(** The loop [for l < abytes { ... }] of [Read].  Each round reads
    into [c[:l]], the first [l] bytes of the same buffer, and adds
    the count to [l].  [inl] is the early [return 0, ErrDecryptSS]. *)
Fixpoint readLoop (fuel : nat) (f : frame) : run (R + frame) :=
  if abytes <=? f_l f then Done (inr f)
  else
    match f_err f with
    | Some _ => Done (inl (f_in f))
    | None =>
        match fuel with
        | O => OutOfFuel
        | S fuel' =>
            let '(data, err, r) := readInto (f_in f) (f_l f) in
            readLoop fuel'
              {| f_in := r; f_c := fill (f_c f) data;
                 f_l := f_l f + length data; f_err := err |}
        end
    end.

(** The first [e.in.Read(c)] on a fresh [c] of [bl + abytes] bytes,
    then the loop. *)
Definition readFrame (fuel : nat) (r : R) (bl : nat) : run (R + frame) :=
  let c := make (bl + abytes) in
  let '(data, err, r1) := readInto r (length c) in
  readLoop fuel
    {| f_in := r1; f_c := fill c data; f_l := length data; f_err := err |}.

(** [Read(b)]: the count, the error, the decoder and [b] afterwards. *)
Definition Read (fuel : nat) (e : T) (b : Bytes)
  : run (nat * option error * T * Bytes) :=
  if final e then Done (0, Some ErrInvalidState, e, b)
  else
    match readFrame fuel (in_ e) (length b) with
    | OutOfFuel => OutOfFuel
    | Panics => Panics
    | Done (inl r) =>
        Done (0, Some ErrDecryptSS,
              {| in_ := r; state := state e; ad := ad e; tag := tag e;
                 final := final e |}, b)
    | Done (inr f) =>
        match f_c f with
        | [] => Panics
        | _ =>
            let p := pull (state e) (f_c f) (f_l f) (ad e) in
            let err := if negb (pull_rc p =? 0)%Z then Some ErrDecryptSS
                       else f_err f in
            let n := f_l f - abytes in
            let ctag := match pull_tag p with Some t => t | None => 0%Z end in
            let fin := (ctag =? tag_final)%Z in
            Done (n, if fin then Some EOF else err,
                  {| in_ := f_in f; state := pull_state p; ad := ad e;
                     tag := fromCtag ctag;
                     final := if fin then true else final e |},
                  fill b (pull_m p))
        end
    end.
End Decoder.
End Decoder.

(** ** An executable instance of the interface

    libsodium's constants (key 32, header 24, overhead 17 bytes; tags
    0, 1, 2, 3) with a small keyed cipher in place of
    XChaCha20-Poly1305: one tag byte, the masked message and a 16-byte
    check value over state, message, associated data and tag.  It is
    what the wrapper is run on for concrete inputs. *)

Module Model.
Definition sum (b : Bytes) : Z := fold_right Z.add 0%Z b.

Definition mask (s : Z) (b : Bytes) : Bytes := map (fun x => Z.lxor x s) b.

Definition mac (s : Z) (m a : Bytes) (t : Z) : Z :=
  ((s + sum m + sum a + t) mod 256)%Z.

Definition next (s : Z) : Z := ((s + 1) mod 256)%Z.

Definition hdr0 : Bytes := repeat 66%Z 24.

Definition init (hdr key : Bytes) : Z := ((sum key + sum hdr) mod 256)%Z.

Definition seal (s : Z) (m a : Bytes) (t : Z) : push_result Z :=
  {| push_rc := 0; push_state := next s;
     push_c := Z.lxor t s :: mask s m ++ repeat (mac s m a t) 16 |}.

Definition unseal (s : Z) (c : Bytes) (l : nat) (a : Bytes) : pull_result Z :=
  let bad := {| pull_rc := -1; pull_state := s; pull_m := [];
                pull_tag := Some 255%Z |} in
  match firstn l c with
  | [] => bad
  | t' :: rest =>
      let t := Z.lxor t' s in
      let m := mask s (firstn (l - 17) rest) in
      let macs := skipn (l - 17) rest in
      if (length macs =? 16) && forallb (Z.eqb (mac s m a t)) macs
      then {| pull_rc := 0; pull_state := next s; pull_m := m;
              pull_tag := Some t |}
      else bad
  end.

#[export] Instance sodium : Sodium :=
  {| State := Z;
     keybytes := 32;
     headerbytes := 24;
     abytes := 17;
     tag_message := 0;
     tag_push := 1;
     tag_rekey := 2;
     tag_final := 3;
     init_push := fun key => (0%Z, init hdr0 key, hdr0);
     init_pull := fun hdr key => (0%Z, init hdr key);
     push := seal;
     pull := unseal |}.

Definition key0 : Bytes := repeat 7%Z 32.
End Model.

(** * The vocabulary of the properties *)

Section Vocabulary.
Context {sodium : Sodium}.

(** The three tags the encoder's API can set. *)
Definition public_tag (t : SecretStreamTag) : Prop :=
  t = SecretStreamTag_Message \/ t = SecretStreamTag_Sync \/
  t = SecretStreamTag_Rekey.

(** The primitive's four tag constants are pairwise distinct where
    the conversions compare them. *)
Definition tags_distinct : Prop :=
  tag_message <> tag_push /\ tag_message <> tag_rekey /\
  tag_push <> tag_rekey /\ tag_final <> tag_push /\
  tag_final <> tag_rekey /\ tag_final <> tag_message.

(** The frame [Write] hands to the sink for [b]. *)
Definition sealed_frame (st : State) (b a : Bytes) (ctag : Z) : Bytes :=
  fill (make (length b + abytes)) (push_c (push st b a ctag)).

(** libsodium's side of the bargain: sizes are positive, the tags are
    distinct, push succeeds and produces [len(m) + abytes] bytes, pull
    on that output under the same state and associated data gives [m]
    and the tag back and advances the state as push did, and init_pull
    on the header init_push produced reaches the same state. *)
Record sodium_contract : Prop :=
  { abytes_pos : 0 < abytes;
    keybytes_pos : 0 < keybytes;
    headerbytes_pos : 0 < headerbytes;
    tags_ok : tags_distinct;
    push_succeeds : forall s m a t, push_rc (push s m a t) = 0%Z;
    push_length :
      forall s m a t, length (push_c (push s m a t)) = length m + abytes;
    pull_push :
      forall s m a t,
        pull s (push_c (push s m a t)) (length m + abytes) a
        = {| pull_rc := 0; pull_state := push_state (push s m a t);
             pull_m := m; pull_tag := Some t |};
    init_succeeds :
      forall key, length key = keybytes ->
                  fst (fst (init_push key)) = 0%Z /\
                  length (snd (init_push key)) = headerbytes;
    init_agree :
      forall key, length key = keybytes ->
                  init_pull (snd (init_push key)) key
                  = (0%Z, snd (fst (init_push key))) }.
End Vocabulary.

(** io.Writer asks that a [Write] returning fewer than [len(p)] bytes
    return an error. *)
Definition writer_full (W : Type) `{Writer W} : Prop :=
  forall (w w' : W) (p : Bytes) (n : nat),
    io_Write w p = (n, None, w') -> n = length p.
Arguments writer_full W {_}.

(** The bytes a chunked source still holds. *)
Definition pending_bytes (chunks : list Bytes) : nat := length (concat chunks).

(** ** Scripts: a whole stream written, a whole stream read *)

Section Scripts.
Context {sodium : Sodium}.

(** [SetTag(t); Write(m)] for each message in turn. *)
Fixpoint write_all {W} `{Writer W} (e : @Encoder.T sodium W)
         (msgs : list (SecretStreamTag * Bytes)) : @Encoder.T sodium W :=
  match msgs with
  | [] => e
  | (t, m) :: rest =>
      write_all (snd (Encoder.Write (Encoder.SetTag e t) m)) rest
  end.

(** How the stream is ended: [WriteAndClose(m)] or [Close()]. *)
Inductive closing : Type :=
| ByWriteAndClose (m : Bytes)
| ByClose.

Definition close_with {W} `{Writer W} (e : @Encoder.T sodium W) (cl : closing)
  : @Encoder.T sodium W :=
  match cl with
  | ByWriteAndClose m => snd (Encoder.WriteAndClose e m)
  | ByClose => snd (Encoder.Close e)
  end.

Definition closing_bytes (cl : closing) : Bytes :=
  match cl with
  | ByWriteAndClose m => m
  | ByClose => []
  end.

(** The frames such a script seals, from state [st] under the
    associated data [a]. *)
Fixpoint frames (st : State) (a : Bytes)
         (msgs : list (SecretStreamTag * Bytes)) (cl : closing) : list Bytes :=
  match msgs with
  | [] => [sealed_frame st (closing_bytes cl) a tag_final]
  | (t, m) :: rest =>
      sealed_frame st m a (toCtag t)
      :: frames (push_state (push st m a (toCtag t))) a rest cl
  end.

(** What one [Read] gave the caller: the first [n] bytes of the buffer,
    [Tag()] after the call, and the error. *)
Record received : Type :=
  { r_bytes : Bytes; r_tag : SecretStreamTag; r_err : option error }.

(** One [Read] per length, each into a fresh buffer of that length. *)
Fixpoint read_all {R} `{Reader R} (fuel : nat) (d : @Decoder.T sodium R)
         (lens : list nat) : run (list received * @Decoder.T sodium R) :=
  match lens with
  | [] => Done ([], d)
  | n :: rest =>
      match Decoder.Read fuel d (make n) with
      | Done (k, err, d', b') =>
          match read_all fuel d' rest with
          | Done (rs, d'') =>
              Done ({| r_bytes := firstn k b'; r_tag := Decoder.Tag d';
                       r_err := err |} :: rs, d'')
          | Panics => Panics
          | OutOfFuel => OutOfFuel
          end
      | Panics => Panics
      | OutOfFuel => OutOfFuel
      end
  end.
(** What the caller received, when every [Read] returned. *)
Definition received_of {R} (r : run (list received * @Decoder.T sodium R))
  : option (list received) :=
  match r with
  | Done (rs, _) => Some rs
  | Panics | OutOfFuel => None
  end.

(** What the reader of such a stream is to receive. *)
Definition expected (msgs : list (SecretStreamTag * Bytes)) (cl : closing)
  : list received :=
  map (fun tm => {| r_bytes := snd tm; r_tag := fst tm; r_err := None |}) msgs
  ++ [{| r_bytes := closing_bytes cl; r_tag := SecretStreamTag_Message;
         r_err := Some EOF |}].

End Scripts.

(** ** Concrete inputs *)

(** The encoder [MakeSecretStreamXCPEncoder] builds over an empty
    in-memory sink, on the executable instance. *)
Definition model_encoder : @Encoder.T Model.sodium BufferWriter :=
  {| Encoder.out := {| written := [] |};
     Encoder.header := Model.hdr0;
     Encoder.state := (Model.init Model.hdr0 Model.key0 : @State Model.sodium);
     Encoder.ad := [];
     Encoder.tag := SecretStreamTag_Message;
     Encoder.final := false |}.

(** That encoder after [SetAdditionData([1 2 3])] and [SetTag(Sync)]. *)
Definition model_encoder_sync : @Encoder.T Model.sodium BufferWriter :=
  Encoder.SetTag (Encoder.SetAdditionData model_encoder [1; 2; 3]%Z)
    SecretStreamTag_Sync.

(** The decoder [MakeSecretStreamXCPDecoder] builds from the same key
    and that encoder's header over a chunked source. *)
Definition model_decoder (chunks : list Bytes)
  : @Decoder.T Model.sodium ChunkReader :=
  {| Decoder.in_ := {| pending := chunks |};
     Decoder.state := (Model.init Model.hdr0 Model.key0 : @State Model.sodium);
     Decoder.ad := [];
     Decoder.tag := SecretStreamTag_Message;
     Decoder.final := false |}.

Definition hello : Bytes := [104; 101; 108; 108; 111]%Z.
Definition world : Bytes := [119; 111; 114; 108; 100]%Z.

(** The spec's scenario: [Write("hello")] then [WriteAndClose("world")]. *)
Definition hello_world_frames : list Bytes :=
  written (Encoder.out
             (close_with (write_all model_encoder
                            [(SecretStreamTag_Message, hello)])
                         (ByWriteAndClose world))).

(** The decoder of that stream once "hello" is read: its source holds
    the frame of "world" and its state has advanced once. *)
Definition model_decoder_second : @Decoder.T Model.sodium ChunkReader :=
  {| Decoder.in_ := {| pending := skipn 1 hello_world_frames |};
     Decoder.state :=
       (Model.next (Model.init Model.hdr0 Model.key0) : @State Model.sodium);
     Decoder.ad := [];
     Decoder.tag := SecretStreamTag_Message;
     Decoder.final := false |}.

(** [SetTag(Sync); Write("a"); SetTag(Rekey); WriteAndClose("b")]. *)
Definition sync_rekey_frames : list Bytes :=
  written (Encoder.out
             (close_with
                (Encoder.SetTag
                   (write_all model_encoder [(SecretStreamTag_Sync, [97%Z])])
                   SecretStreamTag_Rekey)
                (ByWriteAndClose [98%Z]))).

(** [SetAdditionData([1 2 3])] once, then [Write("hi")]. *)
Definition model_encoder_ad : @Encoder.T Model.sodium BufferWriter :=
  snd (Encoder.Write (Encoder.SetAdditionData model_encoder [1; 2; 3]%Z)
         [104; 105]%Z).

(** The frame sealed for "hi" with its last byte altered in transit. *)
Definition tampered_frame : Bytes :=
  removelast (sealed_frame (Encoder.state model_encoder) [104; 105]%Z []
                (@tag_message Model.sodium))
  ++ [0%Z].

(** Twenty bytes arriving one at a time, and the same twenty arriving as
    seventeen and three. *)
Definition twenty : Bytes := map Z.of_nat (seq 1 20).
Definition byte_by_byte : ChunkReader :=
  {| pending := map (fun x => [x]) twenty |}.
Definition seventeen_then_three : ChunkReader :=
  {| pending := [firstn 17 twenty; skipn 17 twenty] |}.

(** ** The rest of the package, and scripts of encoder calls *)

Section Key.
Context {sodium : Sodium}.

(** [MakeSecretStreamXCPKey]: a buffer of [keybytes] bytes handed to
    keygen through the address of its first byte, which panics on an
    empty buffer.  [rnd] is what keygen stores. *)
Definition MakeSecretStreamXCPKey (rnd : Bytes) : run Bytes :=
  match make keybytes with
  | [] => Panics
  | b => Done (fill b rnd)
  end.
End Key.

Section Operations.
Context {sodium : Sodium} {W : Type} {writer : Writer W}.

(** The calls a user can make on an encoder, results dropped. *)
Inductive op : Type :=
| OpWrite (b : Bytes)
| OpWriteAndClose (b : Bytes)
| OpClose
| OpSetTag (t : SecretStreamTag)
| OpSetAdditionData (a : Bytes).

Definition step (e : @Encoder.T sodium W) (o : op) : @Encoder.T sodium W :=
  match o with
  | OpWrite b => snd (Encoder.Write e b)
  | OpWriteAndClose b => snd (Encoder.WriteAndClose e b)
  | OpClose => snd (Encoder.Close e)
  | OpSetTag t => Encoder.SetTag e t
  | OpSetAdditionData a => Encoder.SetAdditionData e a
  end.

Definition run_ops (e : @Encoder.T sodium W) (ops : list op)
  : @Encoder.T sodium W :=
  fold_left step ops e.

Definition is_Close (o : op) : bool :=
  match o with
  | OpClose => true
  | _ => false
  end.

Definition ends_stream (o : op) : bool :=
  match o with
  | OpWriteAndClose _ | OpClose => true
  | _ => false
  end.
End Operations.

(** A sink whose every [Write] fails with the same error and takes
    nothing. *)
Record FailingWriter : Type := { fails_with : error }.

#[export] Instance FailingWriter_Writer : Writer FailingWriter :=
  fun w p => (0, Some (fails_with w), w).

(** A source in the manner of iotest.DataErrReader: it hands out its
    chunks as [ChunkReader] does, but the read that takes the last of
    its bytes returns them together with its closing error, and every
    read after that returns no bytes and that error. *)
Record TailReader : Type := { tail_pending : list Bytes; tail_err : error }.

#[export] Instance TailReader_Reader : Reader TailReader :=
  fun r n =>
    match tail_pending r with
    | [] => ([], Some (tail_err r), r)
    | ch :: rest =>
        match skipn n ch, rest with
        | [], [] =>
            (ch, Some (tail_err r),
             {| tail_pending := []; tail_err := tail_err r |})
        | [], _ =>
            (ch, None, {| tail_pending := rest; tail_err := tail_err r |})
        | tl, _ =>
            (firstn n ch, None,
             {| tail_pending := tl :: rest; tail_err := tail_err r |})
        end
    end.

(** The executable instance with a push that refuses (return code -1,
    state and output untouched) when message and associated data
    together exceed four bytes. *)
Definition strict_sodium : Sodium :=
  {| State := Z;
     keybytes := 32;
     headerbytes := 24;
     abytes := 17;
     tag_message := 0;
     tag_push := 1;
     tag_rekey := 2;
     tag_final := 3;
     init_push := fun key => (0%Z, Model.init Model.hdr0 key, Model.hdr0);
     init_pull := fun hdr key => (0%Z, Model.init hdr key);
     push := fun s m a t =>
               if 4 <? length m + length a
               then {| push_rc := -1; push_state := s; push_c := [] |}
               else Model.seal s m a t;
     pull := Model.unseal |}.

(** ** More concrete inputs *)

(** The encoder over a sink that fails, and over the instance whose
    push can refuse. *)
Definition failing_encoder : @Encoder.T Model.sodium FailingWriter :=
  {| Encoder.out := {| fails_with := ErrIO 5 |};
     Encoder.header := Model.hdr0;
     Encoder.state := (Model.init Model.hdr0 Model.key0 : @State Model.sodium);
     Encoder.ad := [];
     Encoder.tag := SecretStreamTag_Message;
     Encoder.final := false |}.

Definition strict_encoder : @Encoder.T strict_sodium BufferWriter :=
  {| Encoder.out := {| written := [] |};
     Encoder.header := Model.hdr0;
     Encoder.state := (Model.init Model.hdr0 Model.key0 : @State strict_sodium);
     Encoder.ad := [];
     Encoder.tag := SecretStreamTag_Message;
     Encoder.final := false |}.

(** A decoder over a source of two chunks of sixteen bytes. *)
Definition sixteen_twice : list Bytes :=
  [map Z.of_nat (seq 1 16); map Z.of_nat (seq 17 16)].

(** A decoder over a source that ends with its error. *)
Definition tail_decoder (chunks : list Bytes) (err : error)
  : @Decoder.T Model.sodium TailReader :=
  {| Decoder.in_ := {| tail_pending := chunks; tail_err := err |};
     Decoder.state := (Model.init Model.hdr0 Model.key0 : @State Model.sodium);
     Decoder.ad := [];
     Decoder.tag := SecretStreamTag_Message;
     Decoder.final := false |}.

(** A decoder that has read a final frame. *)
Definition model_decoder_done : @Decoder.T Model.sodium ChunkReader :=
  {| Decoder.in_ := {| pending := [hello] |};
     Decoder.state := (18%Z : @State Model.sodium);
     Decoder.ad := [];
     Decoder.tag := SecretStreamTag_Message;
     Decoder.final := true |}.

(** A frame written under a tag value outside the three constants. *)
Definition tag7_frames : list Bytes :=
  written (Encoder.out
             (snd (Encoder.Write (Encoder.SetTag model_encoder 7%Z) hello))).

(** The frame [Write("hi")] seals first on [model_encoder]. *)
Definition hi_frame : Bytes :=
  sealed_frame (Encoder.state model_encoder) [104; 105]%Z []
    (@tag_message Model.sodium).





(** * Properties *)

(** ** Tags *)

Section TagFacts.
Context {sodium : Sodium}.

Lemma fromCtag_other (c : Z) :
  c <> tag_push -> c <> tag_rekey -> fromCtag c = SecretStreamTag_Message.
Proof.
  intros Hp Hr. unfold fromCtag.
  destruct (Z.eqb_spec c tag_push); [contradiction|].
  destruct (Z.eqb_spec c tag_rekey); [contradiction|reflexivity].
Qed.

Lemma fromCtag_toCtag (t : SecretStreamTag) :
  tags_distinct -> public_tag t -> fromCtag (toCtag t) = t.
Proof.
  intros (Hmp & Hmr & Hpr & _) [-> | [-> | ->]]; unfold toCtag; simpl.
  - now apply fromCtag_other.
  - unfold fromCtag. now rewrite Z.eqb_refl.
  - unfold fromCtag. rewrite Z.eqb_refl.
    destruct (Z.eqb_spec tag_rekey tag_push); [|reflexivity].
    now elim Hpr.
Qed.

Lemma toCtag_not_final (t : SecretStreamTag) :
  tags_distinct -> toCtag t <> tag_final.
Proof.
  intros (_ & _ & _ & Hfp & Hfr & Hfm). unfold toCtag.
  destruct (t =? SecretStreamTag_Sync)%Z; [congruence|].
  destruct (t =? SecretStreamTag_Rekey)%Z; congruence.
Qed.

(** C10: converting Message, Sync or Rekey to the primitive's tag and
    back gives the same tag, and every C tag that is neither the push
    nor the rekey tag - the final tag among them - converts to
    Message. *)
Theorem tag_conversion_roundtrip :
  tags_distinct ->
  (forall t, public_tag t -> fromCtag (toCtag t) = t) /\
  (forall c, c <> tag_push -> c <> tag_rekey ->
             fromCtag c = SecretStreamTag_Message) /\
  fromCtag tag_final = SecretStreamTag_Message.
Proof.
  intros Hd. split; [|split].
  - intros t Ht. now apply fromCtag_toCtag.
  - exact fromCtag_other.
  - destruct Hd as (_ & _ & _ & Hfp & Hfr & _). now apply fromCtag_other.
Qed.
End TagFacts.

Lemma model_tags_distinct : @tags_distinct Model.sodium.
Proof. unfold tags_distinct; simpl; repeat split; discriminate. Qed.

Lemma tag_conversion_roundtrip_witness :
  @tags_distinct Model.sodium /\
  ((forall t, public_tag t ->
              @fromCtag Model.sodium (@toCtag Model.sodium t) = t) /\
   (forall c, c <> 1%Z -> c <> 2%Z ->
              @fromCtag Model.sodium c = SecretStreamTag_Message) /\
   @fromCtag Model.sodium 3%Z = SecretStreamTag_Message).
Proof.
  split.
  - unfold tags_distinct; simpl; repeat split; discriminate.
  - apply (@tag_conversion_roundtrip Model.sodium).
    unfold tags_distinct; simpl; repeat split; discriminate.
Defined.

(** ** Buffers *)

Lemma fill_length (buf data : Bytes) : length (fill buf data) = length buf.
Proof.
  unfold fill. rewrite length_app, length_firstn, length_skipn. lia.
Qed.

Lemma fill_exact (buf data : Bytes) :
  length data = length buf -> fill buf data = data.
Proof.
  intros H. unfold fill. rewrite <- H, firstn_all, skipn_all2 by lia.
  apply app_nil_r.
Qed.

Lemma make_length (n : nat) : length (make n) = n.
Proof. apply repeat_length. Qed.

(** ** The encoder *)


Lemma BufferWriter_full : writer_full BufferWriter.
Proof. intros w w' p n H. inversion H. reflexivity. Qed.

Section EncoderFacts.
Context {sodium : Sodium} {W : Type} {writer : Writer W}.
Import Encoder.


Lemma sealed_frame_length st b a ctag :
  length (sealed_frame st b a ctag) = length b + abytes.
Proof. unfold sealed_frame. now rewrite fill_length, make_length. Qed.

Lemma Write_after_final (e : T) (b : Bytes) :
  final e = true -> Write e b = (0, Some ErrInvalidState, e).
Proof. intros H. unfold Write. now rewrite H. Qed.

Lemma WriteAndClose_after_final (e : T) (b : Bytes) :
  final e = true -> WriteAndClose e b = (0, Some ErrInvalidState, e).
Proof. intros H. unfold WriteAndClose. now rewrite H. Qed.

(** [Close] answers with [ErrInvalidState] only when the sink itself
    does: the terminal flag is not looked at. *)
Lemma Close_ignores_final (e : T) :
  fst (Close e) = Some ErrInvalidState ->
  exists c, snd (fst (io_Write (out e) c)) = Some ErrInvalidState.
Proof.
  unfold Close, seal, emit; simpl.
  destruct (negb _); simpl; [discriminate|].
  match goal with |- context [io_Write ?w ?c] =>
    exists c; destruct (io_Write w c) as [[n err] w'] end.
  simpl. auto.
Qed.

(** C6: a [Write] on an encoder that is not terminal seals [b] under
    the pending associated data and the pending tag - the push tag for
    Sync, the rekey tag for Rekey, the message tag otherwise - into a
    frame of [len(b) + abytes] bytes, hands that frame to the sink in
    one [Write], returns what the sink returns, and so, for a sink that
    reports no error, the frame length. *)
Theorem Write_seals_frame (e : T) (b : Bytes) :
  writer_full W ->
  final e = false ->
  push_rc (push (state e) b (ad e)
             (if (tag e =? SecretStreamTag_Sync)%Z then tag_push
              else if (tag e =? SecretStreamTag_Rekey)%Z then tag_rekey
                   else tag_message)) = 0%Z ->
  let r := push (state e) b (ad e)
             (if (tag e =? SecretStreamTag_Sync)%Z then tag_push
              else if (tag e =? SecretStreamTag_Rekey)%Z then tag_rekey
                   else tag_message) in
  let c := fill (make (length b + abytes)) (push_c r) in
  length c = length b + abytes /\
  (length (push_c r) = length b + abytes -> c = push_c r) /\
  exists n err w,
    io_Write (out e) c = (n, err, w) /\
    Write e b = (n, err,
                 {| out := w; header := header e; state := push_state r;
                    ad := ad e; tag := tag e; final := false |}) /\
    (err = None -> n = length b + abytes).
Proof.
  intros Hw Hf Hrc r c.
  assert (Hc : length c = length b + abytes)
    by (unfold c; now rewrite fill_length, make_length).
  split; [exact Hc|]. split.
  - intros Hl. apply fill_exact. now rewrite make_length.
  - destruct (io_Write (out e) c) as [[n err] w] eqn:Hio.
    exists n, err, w. split; [reflexivity|]. split.
    + unfold Write, seal, emit, toCtag. rewrite Hf. simpl. rewrite Hrc. simpl.
      change (fill (make (length b + abytes))
                (push_c (push (state e) b (ad e)
                           (if (tag e =? SecretStreamTag_Sync)%Z then tag_push
                            else if (tag e =? SecretStreamTag_Rekey)%Z
                                 then tag_rekey else tag_message))))
        with c.
      now rewrite Hio.
    + intros ->. now rewrite (Hw _ _ _ _ Hio).
Qed.
End EncoderFacts.


Module ModelFacts.
Import Model.

Lemma mask_mask (s : Z) (b : Bytes) : mask s (mask s b) = b.
Proof.
  unfold mask. rewrite map_map. rewrite <- (map_id b) at 2.
  apply map_ext. intros x.
  now rewrite Z.lxor_assoc, Z.lxor_nilpotent, Z.lxor_0_r.
Qed.

Lemma mask_length (s : Z) (b : Bytes) : length (mask s b) = length b.
Proof. apply length_map. Qed.

Lemma forallb_repeat (x : Z) (n : nat) : forallb (Z.eqb x) (repeat x n) = true.
Proof. induction n; simpl; [reflexivity|]. now rewrite Z.eqb_refl. Qed.

Lemma unseal_seal (s : Z) (m a : Bytes) (t : Z) :
  unseal s (push_c (seal s m a t)) (length m + 17) a
  = {| pull_rc := 0; pull_state := next s; pull_m := m;
       pull_tag := Some t |}.
Proof.
  unfold unseal, seal; cbn [push_c].
  rewrite firstn_all2
    by (cbn [length]; rewrite length_app, mask_length, repeat_length; lia).
  replace (length m + 17 - 17) with (length (mask s m))
    by (rewrite mask_length; lia).
  rewrite firstn_app, Nat.sub_diag, firstn_all, firstn_O, app_nil_r.
  rewrite skipn_app, Nat.sub_diag, skipn_all, skipn_O. cbn [app].
  rewrite mask_mask, Z.lxor_assoc, Z.lxor_nilpotent, Z.lxor_0_r.
  rewrite repeat_length, forallb_repeat. reflexivity.
Qed.

Lemma model_contract : @sodium_contract Model.sodium.
Proof.
  constructor.
  - simpl; lia.
  - simpl; lia.
  - simpl; lia.
  - unfold tags_distinct; simpl; repeat split; discriminate.
  - reflexivity.
  - intros s m a t.
    change (length (Z.lxor t s :: mask s m ++ repeat (mac s m a t) 16)
            = length m + 17).
    cbn [length]. rewrite length_app, mask_length, repeat_length. lia.
  - intros s m a t. apply unseal_seal.
  - intros key _. split; reflexivity.
  - reflexivity.
Qed.
End ModelFacts.

(** ** The decoder *)

Section DecoderFacts.
Context {sodium : Sodium} {R : Type} {reader : Reader R}.
Import Decoder.

Lemma Read_after_final (fuel : nat) (e : T) (b : Bytes) :
  final e = true -> Read fuel e b = Done (0, Some ErrInvalidState, e, b).
Proof. intros H. unfold Read. now rewrite H. Qed.

Lemma readLoop_ready (fuel : nat) (f : frame) :
  abytes <= f_l f -> readLoop fuel f = Done (inr f).
Proof.
  intros H. destruct fuel; simpl;
    destruct (Nat.leb_spec abytes (f_l f)); try reflexivity; lia.
Qed.

(** The loop leaves only when [l] has reached the overhead, and the
    scratch buffer keeps its length. *)
Lemma readLoop_assembled (fuel : nat) (f f' : frame) :
  readLoop fuel f = Done (inr f') ->
  abytes <= f_l f' /\ length (f_c f') = length (f_c f).
Proof.
  revert f. induction fuel as [|fuel IH]; intros f; simpl;
    destruct (Nat.leb_spec abytes (f_l f)) as [Hle|Hlt].
  - intros [= <-]. auto.
  - destruct (f_err f); discriminate.
  - intros [= <-]. auto.
  - destruct (f_err f); [discriminate|].
    destruct (readInto (f_in f) (f_l f)) as [[data err] r].
    intros H. apply IH in H. simpl in H. now rewrite fill_length in H.
Qed.

Lemma readFrame_assembled (fuel : nat) (r : R) (bl : nat) (f : frame) :
  readFrame fuel r bl = Done (inr f) ->
  abytes <= f_l f /\ length (f_c f) = bl + abytes.
Proof.
  unfold readFrame.
  destruct (readInto r (length (make (bl + abytes)))) as [[data err] r1].
  intros H. apply readLoop_assembled in H. simpl in H.
  now rewrite fill_length, make_length in H.
Qed.

(** What [Read] does once a frame is assembled. *)
Lemma Read_assembled (fuel : nat) (e : T) (b : Bytes) (f : frame) :
  0 < abytes ->
  final e = false ->
  readFrame fuel (in_ e) (length b) = Done (inr f) ->
  let p := pull (state e) (f_c f) (f_l f) (ad e) in
  let ctag := match pull_tag p with Some t => t | None => 0%Z end in
  Read fuel e b
  = Done (f_l f - abytes,
          (if (ctag =? tag_final)%Z then Some EOF
           else if negb (pull_rc p =? 0)%Z then Some ErrDecryptSS
                else f_err f),
          {| in_ := f_in f; state := pull_state p; ad := ad e;
             tag := fromCtag ctag;
             final := (ctag =? tag_final)%Z |},
          fill b (pull_m p)).
Proof.
  intros Hpos Hfin Hfr p ctag. unfold Read. rewrite Hfin, Hfr.
  destruct (readFrame_assembled _ _ _ Hfr) as [_ Hlen].
  destruct (f_c f) as [|x c] eqn:Hc; [simpl in Hlen; lia|].
  fold p. fold ctag. now destruct (ctag =? tag_final)%Z.
Qed.


(** A frame whose opened tag is the final tag: the byte count comes
    with io.EOF, the decoder is terminal, [Tag()] is Message, and the
    next [Read] is refused. *)
Lemma Read_final_frame (fuel : nat) (e : T) (b b' : Bytes) (f : frame) :
  0 < abytes ->
  tag_final <> tag_push -> tag_final <> tag_rekey ->
  final e = false ->
  readFrame fuel (in_ e) (length b) = Done (inr f) ->
  pull_tag (pull (state e) (f_c f) (f_l f) (ad e)) = Some tag_final ->
  exists e',
    Read fuel e b
    = Done (f_l f - abytes, Some EOF, e',
            fill b (pull_m (pull (state e) (f_c f) (f_l f) (ad e)))) /\
    final e' = true /\
    Tag e' = SecretStreamTag_Message /\
    Read fuel e' b' = Done (0, Some ErrInvalidState, e', b').
Proof.
  intros Hpos Hfp Hfr Hfin Hfrm Htag.
  rewrite (@Read_assembled fuel e b f Hpos Hfin Hfrm). rewrite Htag, Z.eqb_refl.
  eexists. split; [reflexivity|]. split; [reflexivity|]. split.
  - simpl. now apply fromCtag_other.
  - now apply Read_after_final.
Qed.
End DecoderFacts.

(** ** The decoder over a chunked source *)


Section ChunkedSource.
Context {sodium : Sodium}.
Import Decoder.

Lemma readInto_chunk (ch : Bytes) (rest : list Bytes) (n : nat) :
  readInto {| pending := ch :: rest |} n
  = (firstn n ch, None,
     {| pending := match skipn n ch with
                   | [] => rest
                   | tl => tl :: rest
                   end |}).
Proof.
  unfold readInto, io_Read, ChunkReader_Reader; simpl.
  now rewrite firstn_firstn, Nat.min_id.
Qed.

Lemma readInto_empty (n : nat) :
  readInto {| pending := [] |} n = ([], Some EOF, {| pending := [] |}).
Proof.
  unfold readInto, io_Read, ChunkReader_Reader; simpl.
  now rewrite firstn_nil.
Qed.

(** A chunk that fits the buffer is taken whole. *)
Lemma readInto_whole (ch : Bytes) (rest : list Bytes) (n : nat) :
  length ch <= n ->
  readInto {| pending := ch :: rest |} n = (ch, None, {| pending := rest |}).
Proof.
  intros H. rewrite readInto_chunk.
  now rewrite firstn_all2, skipn_all2 by lia.
Qed.

(** Inside the loop a source holding too few bytes runs dry: every
    round with [l >= 1] takes a chunk or shortens one. *)
Lemma readLoop_runs_dry (fuel : nat) :
  forall (chunks : list Bytes) (c : Bytes) (l : nat),
    1 <= l ->
    l + pending_bytes chunks < abytes ->
    length chunks + pending_bytes chunks < fuel ->
    exists r, readLoop fuel {| f_in := {| pending := chunks |}; f_c := c;
                               f_l := l; f_err := None |} = Done (inl r).
Proof.
  induction fuel as [|fuel IH]; intros chunks c l Hl Hlt Hfuel; [lia|].
  cbn [readLoop f_l f_err f_in f_c].
  destruct (Nat.leb_spec abytes l) as [Hle|_]; [unfold pending_bytes in *; lia|].
  destruct chunks as [|ch rest].
  - rewrite readInto_empty. exists {| pending := [] |}.
    destruct fuel; cbn [readLoop f_l f_err f_in];
      destruct (Nat.leb_spec abytes (l + length (@nil Z)));
      try reflexivity; simpl in *; lia.
  - rewrite readInto_chunk.
    unfold pending_bytes in *. simpl concat in *.
    rewrite length_app in *. simpl length in Hfuel.
    pose proof (length_firstn l ch) as Hfn.
    pose proof (length_skipn l ch) as Hsk.
    destruct (skipn l ch) as [|x tl] eqn:Hs.
    + apply IH; simpl in Hsk; lia.
    + apply IH; [lia| |].
      * cbn [concat app length]. rewrite length_app.
        cbn [length] in Hsk. lia.
      * cbn [concat app length]. rewrite length_app.
        cbn [length] in Hsk. lia.
Qed.

(** A source that holds fewer than [abytes] bytes and then ends makes
    [Read] return [0, ErrDecryptSS], for every fuel past the number of
    chunks and bytes pending, provided its first answer is not "no
    bytes, no error". *)
Lemma Read_truncated (e : @T sodium ChunkReader) (b : Bytes) (fuel : nat) :
  final e = false ->
  pending_bytes (pending (in_ e)) < abytes ->
  hd_error (pending (in_ e)) <> Some [] ->
  length (pending (in_ e)) + pending_bytes (pending (in_ e)) < fuel ->
  exists r,
    Read fuel e b
    = Done (0, Some ErrDecryptSS,
            {| in_ := r; state := state e; ad := ad e; tag := tag e;
               final := false |}, b).
Proof.
  intros Hfin Hlt Hhd Hfuel.
  assert (Hfr : exists r, readFrame fuel (in_ e) (length b) = Done (inl r)).
  { unfold readFrame. rewrite make_length.
    destruct (in_ e) as [chunks]. simpl in *.
    destruct chunks as [|ch rest].
    - rewrite readInto_empty. exists {| pending := [] |}.
      destruct fuel; [lia|]. cbn [readLoop f_l f_err f_in].
      destruct (Nat.leb_spec abytes (length (@nil Z)));
        [simpl in *; unfold pending_bytes in *; simpl in *; lia|reflexivity].
    - unfold pending_bytes in *. simpl concat in *. rewrite length_app in *.
      simpl length in Hfuel.
      rewrite readInto_whole by lia.
      destruct ch as [|x ch]; [now elim Hhd|].
      apply readLoop_runs_dry; unfold pending_bytes; simpl length in *; lia. }
  destruct Hfr as [r Hfr]. exists r. unfold Read. now rewrite Hfin, Hfr.
Qed.

(** Without that proviso the loop spins: with [l = 0] it reads into
    the empty slice [c[:0]], which takes nothing from the source. *)
Lemma Read_spins_on_empty_answer
      (e : @T sodium ChunkReader) (b ch : Bytes) (rest : list Bytes) :
  0 < abytes -> final e = false -> ch <> [] ->
  pending (in_ e) = [] :: ch :: rest ->
  forall fuel, Read fuel e b = OutOfFuel.
Proof.
  intros Hpos Hfin Hch Hp fuel.
  assert (Hloop : forall n c,
             readLoop n {| f_in := {| pending := ch :: rest |}; f_c := c;
                           f_l := 0; f_err := None |} = OutOfFuel).
  { induction n as [|n IH]; intros c; cbn [readLoop f_l f_err f_in f_c];
      (destruct (Nat.leb_spec abytes 0); [lia|]); [reflexivity|].
    rewrite readInto_chunk. simpl firstn. simpl skipn.
    destruct ch; [now elim Hch|]. apply IH. }
  unfold Read. rewrite Hfin. unfold readFrame.
  destruct (in_ e) as [chunks]. simpl in Hp. subst chunks.
  rewrite readInto_whole by (simpl; lia). simpl length. now rewrite Hloop.
Qed.

(** ** One frame, sealed and opened *)

Lemma sealed_frame_push (st : State) (m a : Bytes) (ctag : Z) :
  sodium_contract ->
  sealed_frame st m a ctag = push_c (push st m a ctag).
Proof.
  intros C. unfold sealed_frame. apply fill_exact.
  now rewrite make_length, (push_length C).
Qed.

(** The decoder, in step with the encoder's state and associated
    data, reads the frame sealed for [m] under [ctag] with a buffer
    of [len(m)] bytes. *)
Lemma Read_sealed (fuel : nat) (e : @T sodium ChunkReader) (b m : Bytes)
      (ctag : Z) (rest : list Bytes) :
  sodium_contract ->
  final e = false ->
  length b = length m ->
  pending (in_ e) = sealed_frame (state e) m (ad e) ctag :: rest ->
  Read fuel e b
  = Done (length m,
          (if (ctag =? tag_final)%Z then Some EOF else None),
          {| in_ := {| pending := rest |};
             state := push_state (push (state e) m (ad e) ctag);
             ad := ad e; tag := fromCtag ctag;
             final := (ctag =? tag_final)%Z |},
          m).
Proof.
  intros C Hfin Hb Hp.
  assert (Hfr : readFrame fuel (in_ e) (length b)
                = Done (inr {| f_in := {| pending := rest |};
                               f_c := sealed_frame (state e) m (ad e) ctag;
                               f_l := length m + abytes;
                               f_err := None |})).
  { unfold readFrame. rewrite make_length.
    destruct (in_ e) as [chunks]. simpl in Hp. subst chunks.
    rewrite readInto_whole by (rewrite sealed_frame_length; lia).
    rewrite fill_exact
      by (now rewrite make_length, sealed_frame_length, Hb).
    rewrite sealed_frame_length. apply readLoop_ready. simpl. lia. }
  rewrite (@Read_assembled sodium ChunkReader _ fuel e b _
             (abytes_pos C) Hfin Hfr).
  cbn [f_c f_l f_in f_err].
  rewrite (sealed_frame_push _ _ _ _ C), (pull_push C).
  cbn [pull_rc pull_state pull_m pull_tag]. simpl negb.
  rewrite fill_exact by lia.
  replace (length m + abytes - abytes) with (length m) by lia.
  now destruct (ctag =? tag_final)%Z.
Qed.

(** C3, as the code has it: the decoder that reads the frame sealed
    with the primitive's final tag gets the plaintext together with
    io.EOF and becomes terminal; [Tag()] is then Message - the type
    has no tag for Final - and the next [Read] is refused. *)
Theorem Read_final_reports_Message
        (fuel : nat) (e : @T sodium ChunkReader) (b b' m : Bytes)
        (rest : list Bytes) :
  sodium_contract ->
  final e = false ->
  length b = length m ->
  pending (in_ e) = sealed_frame (state e) m (ad e) tag_final :: rest ->
  exists e',
    Read fuel e b = Done (length m, Some EOF, e', m) /\
    final e' = true /\
    Tag e' = SecretStreamTag_Message /\
    toCtag (Tag e') <> tag_final /\
    Read fuel e' b' = Done (0, Some ErrInvalidState, e', b').
Proof.
  intros C Hfin Hb Hp.
  rewrite (@Read_sealed fuel e b m tag_final rest C Hfin Hb Hp).
  rewrite Z.eqb_refl. eexists. split; [reflexivity|].
  destruct (tags_ok C) as (_ & _ & _ & Hfp & Hfr & _).
  split; [reflexivity|]. split; [|split].
  - simpl. now apply fromCtag_other.
  - apply toCtag_not_final, (tags_ok C).
  - now apply Read_after_final.
Qed.
End ChunkedSource.

(** ** A whole stream, written and read back *)

Section RoundTrip.
Context {sodium : Sodium}.

Lemma MakeSecretStreamXCPEncoder_ok {W} `{Writer W} (key : Bytes) (o : W) :
  sodium_contract ->
  length key = keybytes ->
  Encoder.MakeSecretStreamXCPEncoder key o
  = Done {| Encoder.out := o;
            Encoder.header := snd (init_push key);
            Encoder.state := snd (fst (init_push key));
            Encoder.ad := [];
            Encoder.tag := SecretStreamTag_Message;
            Encoder.final := false |}.
Proof.
  intros C Hk. unfold Encoder.MakeSecretStreamXCPEncoder, checkTypedSize.
  cbn [Length Size]. rewrite Hk, Nat.eqb_refl.
  pose proof (headerbytes_pos C) as Hh. pose proof (keybytes_pos C) as Hkp.
  destruct (init_succeeds C key Hk) as [Hrc Hlen].
  destruct (make headerbytes) as [|z h] eqn:Hm.
  { apply (f_equal (@length Z)) in Hm. rewrite make_length in Hm.
    simpl in Hm. lia. }
  destruct key as [|k key']; [simpl in Hk; lia|].
  destruct (init_push (k :: key')) as [[rc st] hdr]. simpl in *.
  subst rc. simpl. rewrite <- Hm, fill_exact; [reflexivity|].
  now rewrite make_length.
Qed.

Lemma MakeSecretStreamXCPDecoder_ok {R} (key : Bytes) (i : R) :
  sodium_contract ->
  length key = keybytes ->
  Decoder.MakeSecretStreamXCPDecoder key i (snd (init_push key))
  = Done (Some {| Decoder.in_ := i;
                  Decoder.state := snd (fst (init_push key));
                  Decoder.ad := [];
                  Decoder.tag := SecretStreamTag_Message;
                  Decoder.final := false |}, None).
Proof.
  intros C Hk.
  unfold Decoder.MakeSecretStreamXCPDecoder,
    Decoder.MakeSecretStreamXCPDecoderWith, checkTypedSize.
  cbn [Length Size]. rewrite Hk, Nat.eqb_refl.
  pose proof (headerbytes_pos C) as Hh. pose proof (keybytes_pos C) as Hkp.
  destruct (init_succeeds C key Hk) as [_ Hlen].
  rewrite Hlen, Nat.eqb_refl, (init_agree C key Hk).
  destruct (snd (init_push key)) as [|z h]; [simpl in Hlen; lia|].
  destruct key as [|k key']; [simpl in Hk; lia|]. reflexivity.
Qed.

(** One sealing method over the in-memory sink. *)
Lemma emit_sealed (e : @Encoder.T sodium BufferWriter) (m : Bytes) (ctag : Z)
      (fin : bool) :
  sodium_contract ->
  (let '(rc, c, e1) := Encoder.seal e m ctag in
   if negb (rc =? 0)%Z then (0, Some ErrUnknown, e1)
   else Encoder.emit e1 c fin)
  = (length m + abytes, None,
     {| Encoder.out :=
          {| written := written (Encoder.out e)
                        ++ [sealed_frame (Encoder.state e) m (Encoder.ad e) ctag] |};
        Encoder.header := Encoder.header e;
        Encoder.state := push_state (push (Encoder.state e) m (Encoder.ad e) ctag);
        Encoder.ad := Encoder.ad e;
        Encoder.tag := Encoder.tag e;
        Encoder.final := fin |}).
Proof.
  intros C. unfold Encoder.seal, Encoder.emit. rewrite (push_succeeds C). simpl.
  unfold io_Write, BufferWriter_Writer. cbn [Encoder.out].
  fold (sealed_frame (Encoder.state e) m (Encoder.ad e) ctag).
  now rewrite sealed_frame_length.
Qed.

Lemma written_all (msgs : list (SecretStreamTag * Bytes)) (cl : closing) :
  sodium_contract ->
  forall e : @Encoder.T sodium BufferWriter,
    Encoder.final e = false ->
    let e' := close_with (write_all e msgs) cl in
    written (Encoder.out e')
    = written (Encoder.out e)
      ++ frames (Encoder.state e) (Encoder.ad e) msgs cl /\
    Encoder.final e' = true.
Proof.
  intros C. induction msgs as [|[t m] msgs IH]; intros e Hfin.
  - cbn [write_all frames]. destruct cl as [m|]; cbn [close_with closing_bytes].
    + unfold Encoder.WriteAndClose. rewrite Hfin, (emit_sealed e m _ true C).
      split; reflexivity.
    + unfold Encoder.Close.
      pose proof (emit_sealed e [] tag_final true C) as E.
      destruct (Encoder.seal e [] tag_final) as [[rc c] e1].
      destruct (negb (rc =? 0)%Z).
      * discriminate E.
      * destruct (Encoder.emit e1 c true) as [[n err] e2].
        injection E as _ _ ->. split; reflexivity.
  - cbn [write_all frames].
    assert (HW : Encoder.Write (Encoder.SetTag e t) m
                 = (length m + abytes, None,
                    {| Encoder.out :=
                         {| written := written (Encoder.out e)
                              ++ [sealed_frame (Encoder.state e) m
                                    (Encoder.ad e) (toCtag t)] |};
                       Encoder.header := Encoder.header e;
                       Encoder.state :=
                         push_state (push (Encoder.state e) m (Encoder.ad e)
                                       (toCtag t));
                       Encoder.ad := Encoder.ad e;
                       Encoder.tag := t;
                       Encoder.final := false |})).
    { unfold Encoder.Write. cbn [Encoder.SetTag Encoder.final Encoder.tag].
      rewrite Hfin.
      pose proof (emit_sealed (Encoder.SetTag e t) m (toCtag t) false C) as E.
      destruct (Encoder.seal (Encoder.SetTag e t) m (toCtag t)) as [[rc c] e1] eqn:Hs.
      assert (He1 : Encoder.final e1 = false).
      { unfold Encoder.seal in Hs. injection Hs as _ _ <-. exact Hfin. }
      rewrite He1. exact E. }
    rewrite HW. cbn [snd].
    match goal with |- context [write_all ?x msgs] =>
      destruct (IH x eq_refl) as [Hw Hf] end.
    cbn [Encoder.out Encoder.state Encoder.ad written] in Hw.
    rewrite Hw, <- app_assoc. split; [reflexivity|exact Hf].
Qed.

Lemma read_frames (fuel : nat) (cl : closing) (rest : list Bytes) :
  sodium_contract ->
  forall (msgs : list (SecretStreamTag * Bytes))
         (d : @Decoder.T sodium ChunkReader),
    Forall (fun tm => public_tag (fst tm)) msgs ->
    Decoder.final d = false ->
    pending (Decoder.in_ d)
    = frames (Decoder.state d) (Decoder.ad d) msgs cl ++ rest ->
    exists dN,
      read_all fuel d (map (fun tm => length (snd tm)) msgs
                       ++ [length (closing_bytes cl)])
      = Done (expected msgs cl, dN) /\
      Decoder.final dN = true /\
      pending (Decoder.in_ dN) = rest.
Proof.
  intros C. induction msgs as [|[t m] msgs IH]; intros d Hpub Hfin Hp.
  - cbn [frames app] in Hp. cbn [map app read_all].
    rewrite (@Read_sealed sodium fuel d (make (length (closing_bytes cl)))
               (closing_bytes cl) tag_final rest C Hfin
               (make_length _) Hp).
    rewrite Z.eqb_refl.
    destruct (tags_ok C) as (_ & _ & _ & Hfp & Hfr & _).
    eexists. split.
    { unfold expected. cbn [map app Decoder.Tag Decoder.tag].
      now rewrite firstn_all, fromCtag_other. }
    split; reflexivity.
  - cbn [frames app] in Hp. cbn [map app read_all snd].
    inversion Hpub as [|? ? Ht Hpub']; subst. cbn [fst] in Ht.
    rewrite (@Read_sealed sodium fuel d (make (length m)) m (toCtag t) _ C Hfin
               (make_length _) Hp).
    destruct (Z.eqb_spec (toCtag t) tag_final) as [E|_];
      [now apply toCtag_not_final in E; [|apply (tags_ok C)]|].
    match goal with |- context [read_all fuel ?x _] =>
      destruct (IH x Hpub' eq_refl eq_refl) as (dN & Hr & Hf & Hrest) end.
    rewrite Hr. exists dN. split; [|split; assumption].
    unfold expected. cbn [map app Decoder.Tag Decoder.tag fst snd].
    now rewrite firstn_all, (fromCtag_toCtag (tags_ok C) Ht).
Qed.

(** C5, as the code has it: the messages written with [Write] under
    tags among Message, Sync and Rekey, then the stream ended with
    [WriteAndClose] or [Close], are read back in order by the decoder
    made from the same key and the encoder's header (same associated
    data on both sides, the sink's frames as the source, buffers of
    the messages' lengths): same bytes, same tags, no error, for the
    frames of [Write]; the bytes, io.EOF and the tag Message for the
    closing frame, after which the decoder is terminal. *)
Theorem stream_round_trip
        (fuel : nat) (key a : Bytes)
        (msgs : list (SecretStreamTag * Bytes)) (cl : closing) :
  sodium_contract ->
  length key = keybytes ->
  Forall (fun tm => public_tag (fst tm)) msgs ->
  exists e0 d0 dN,
    Encoder.MakeSecretStreamXCPEncoder key {| written := [] |} = Done e0 /\
    Decoder.MakeSecretStreamXCPDecoder key
      {| pending :=
           written (Encoder.out
                      (close_with
                         (write_all (Encoder.SetAdditionData e0 a) msgs) cl)) |}
      (Encoder.Header e0)
    = Done (Some d0, None) /\
    read_all fuel (Decoder.SetAdditionData d0 a)
             (map (fun tm => length (snd tm)) msgs
              ++ [length (closing_bytes cl)])
    = Done (expected msgs cl, dN) /\
    Decoder.final dN = true /\
    pending (Decoder.in_ dN) = [].
Proof.
  intros C Hk Hpub.
  pose proof (MakeSecretStreamXCPEncoder_ok (W := BufferWriter) key
                {| written := [] |} C Hk) as He.
  match type of He with _ = Done ?x => set (e0 := x) in * end.
  pose proof (written_all msgs cl C (Encoder.SetAdditionData e0 a) eq_refl)
    as Hw.
  cbv zeta in Hw. destruct Hw as [Hw _].
  cbn [Encoder.SetAdditionData Encoder.out Encoder.state Encoder.ad e0
       written app] in Hw.
  pose proof (MakeSecretStreamXCPDecoder_ok key
                {| pending :=
                     written (Encoder.out
                                (close_with
                                   (write_all (Encoder.SetAdditionData e0 a)
                                      msgs) cl)) |} C Hk) as Hd.
  match type of Hd with _ = Done (Some ?x, None) => set (d0 := x) in * end.
  destruct (@read_frames fuel cl [] C msgs (Decoder.SetAdditionData d0 a)
              Hpub eq_refl) as (dN & Hr & Hf & Hrest).
  { cbn [Decoder.SetAdditionData Decoder.in_ Decoder.state Decoder.ad d0
         pending].
    rewrite Hw. now rewrite app_nil_r. }
  exists e0, d0, dN. repeat split; assumption.
Qed.
End RoundTrip.

(** ** Constructing a decoder *)

Section HeaderValidation.
Context {sodium : Sodium} {R : Type}.

(** Whatever the size check does, the constructor's error result comes
    from init_pull alone. *)
Lemma MakeSecretStreamXCPDecoderWith_error
      (check : Typed -> run unit) (key hdr : Bytes) (i : R) (e : error) :
  Decoder.MakeSecretStreamXCPDecoderWith check key i hdr = Done (None, Some e) ->
  e = ErrInvalidHeader /\
  check (SecretStreamXCPKey key) = Done tt /\
  check (SecretStreamXCPHeader hdr) = Done tt /\
  fst (init_pull hdr key) <> 0%Z.
Proof.
  unfold Decoder.MakeSecretStreamXCPDecoderWith.
  destruct (check (SecretStreamXCPKey key)) as [[]| |]; try discriminate.
  destruct (check (SecretStreamXCPHeader hdr)) as [[]| |]; try discriminate.
  destruct hdr as [|h hdr]; [discriminate|].
  destruct key as [|k key]; [discriminate|].
  destruct (init_pull (h :: hdr) (k :: key)) as [rc st]. simpl.
  destruct (Z.eqb_spec rc 0); simpl; [discriminate|].
  intros [= <-]. auto.
Qed.

(** C8, as the code has it: with a key of the right size, a header
    whose length is not [headerbytes] is rejected by the size check,
    which is called as a statement and can only panic: the
    constructor panics, before init_pull and with no access to the
    source, and returns no ErrInvalidHeader.  Whatever the size check
    does, ErrInvalidHeader is returned only when both checks have
    returned and init_pull then returns non-zero. *)
Theorem MakeSecretStreamXCPDecoder_header_size (key hdr : Bytes) (i : R) :
  length key = keybytes ->
  length hdr <> headerbytes ->
  Decoder.MakeSecretStreamXCPDecoder key i hdr = Panics /\
  forall (check : Typed -> run unit) (e : error),
    Decoder.MakeSecretStreamXCPDecoderWith check key i hdr
    = Done (None, Some e) ->
    e = ErrInvalidHeader /\
    check (SecretStreamXCPKey key) = Done tt /\
    check (SecretStreamXCPHeader hdr) = Done tt /\
    fst (init_pull hdr key) <> 0%Z.
Proof.
  intros Hk Hh. split.
  - unfold Decoder.MakeSecretStreamXCPDecoder,
      Decoder.MakeSecretStreamXCPDecoderWith, checkTypedSize.
    cbn [Length Size]. rewrite Hk, Nat.eqb_refl.
    destruct (Nat.eqb_spec (length hdr) headerbytes);
      [contradiction|reflexivity].
  - intros check e. apply MakeSecretStreamXCPDecoderWith_error.
Qed.
End HeaderValidation.

(** ** Associated data *)

Section AssociatedData.
Context {sodium : Sodium} {W : Type} {writer : Writer W}
        {R : Type} {reader : Reader R}.

Lemma seal_keeps_ad (e : @Encoder.T sodium W) (m : Bytes) (ctag : Z) :
  Encoder.ad (snd (Encoder.seal e m ctag)) = Encoder.ad e.
Proof. reflexivity. Qed.

Lemma emit_keeps_ad (e : @Encoder.T sodium W) (c : Bytes) (fin : bool) :
  Encoder.ad (snd (Encoder.emit e c fin)) = Encoder.ad e.
Proof.
  unfold Encoder.emit. now destruct (io_Write (Encoder.out e) c) as [[n err] w].
Qed.

Lemma Write_keeps_ad (e : @Encoder.T sodium W) (b : Bytes) :
  Encoder.ad (snd (Encoder.Write e b)) = Encoder.ad e.
Proof.
  unfold Encoder.Write. destruct (Encoder.final e); [reflexivity|].
  unfold Encoder.seal. destruct (negb _); [reflexivity|].
  now rewrite emit_keeps_ad.
Qed.

Lemma WriteAndClose_keeps_ad (e : @Encoder.T sodium W) (b : Bytes) :
  Encoder.ad (snd (Encoder.WriteAndClose e b)) = Encoder.ad e.
Proof.
  unfold Encoder.WriteAndClose. destruct (Encoder.final e); [reflexivity|].
  unfold Encoder.seal. destruct (negb _); [reflexivity|].
  now rewrite emit_keeps_ad.
Qed.

Lemma Close_keeps_ad (e : @Encoder.T sodium W) :
  Encoder.ad (snd (Encoder.Close e)) = Encoder.ad e.
Proof.
  unfold Encoder.Close, Encoder.seal. destruct (negb _); [reflexivity|].
  match goal with |- context [Encoder.emit ?x ?c ?f] =>
    pose proof (emit_keeps_ad x c f) as H;
    destruct (Encoder.emit x c f) as [[n err] e2] end.
  exact H.
Qed.

Lemma Read_keeps_ad (fuel : nat) (d d' : @Decoder.T sodium R) (b b' : Bytes)
      (n : nat) (err : option error) :
  Decoder.Read fuel d b = Done (n, err, d', b') ->
  Decoder.ad d' = Decoder.ad d.
Proof.
  unfold Decoder.Read. destruct (Decoder.final d).
  - now intros [= _ _ <- _].
  - destruct (Decoder.readFrame fuel (Decoder.in_ d) (length b))
      as [[r|f]| |]; try discriminate.
    + now intros [= _ _ <- _].
    + destruct (Decoder.f_c f); [discriminate|]. now intros [= _ _ <- _].
Qed.

(** C4, as the code has it: the associated data given to
    [SetAdditionData] stays pending after the operation that used it.
    [Write], [WriteAndClose], [Close] and [Read] leave it as it was,
    so the operation that follows seals or opens under the same
    associated data until [SetAdditionData] is called again. *)
Theorem additional_data_persists :
  (forall (e : @Encoder.T sodium W) (a b : Bytes),
      Encoder.ad (snd (Encoder.Write (Encoder.SetAdditionData e a) b)) = a) /\
  (forall (e : @Encoder.T sodium W) (a b : Bytes),
      Encoder.ad (snd (Encoder.WriteAndClose (Encoder.SetAdditionData e a) b))
      = a) /\
  (forall (e : @Encoder.T sodium W) (a : Bytes),
      Encoder.ad (snd (Encoder.Close (Encoder.SetAdditionData e a))) = a) /\
  (forall (e : @Encoder.T sodium W) (a b m : Bytes) (ctag : Z),
      fst (Encoder.seal
             (snd (Encoder.Write (Encoder.SetAdditionData e a) b)) m ctag)
      = (push_rc (push (Encoder.state
                          (snd (Encoder.Write (Encoder.SetAdditionData e a) b)))
                       m a ctag),
         sealed_frame (Encoder.state
                         (snd (Encoder.Write (Encoder.SetAdditionData e a) b)))
                      m a ctag)) /\
  (forall (fuel : nat) (d d' : @Decoder.T sodium R) (a b b' : Bytes)
          (n : nat) (err : option error),
      Decoder.Read fuel (Decoder.SetAdditionData d a) b = Done (n, err, d', b') ->
      Decoder.ad d' = a /\
      forall fuel' b2,
        Decoder.Read fuel' d' b2
        = Decoder.Read fuel' (Decoder.SetAdditionData d' a) b2).
Proof.
  split; [|split; [|split; [|split]]].
  - intros e a b. now rewrite Write_keeps_ad.
  - intros e a b. now rewrite WriteAndClose_keeps_ad.
  - intros e a. now rewrite Close_keeps_ad.
  - intros e a b m ctag. unfold Encoder.seal at 1. cbn [fst].
    now rewrite Write_keeps_ad.
  - intros fuel d d' a b b' n err H. apply Read_keeps_ad in H.
    cbn [Decoder.SetAdditionData Decoder.ad] in H. split; [exact H|].
    intros fuel' b2. destruct d' as [i st a' t f]. cbn [Decoder.ad] in H.
    now subst a'.
Qed.
End AssociatedData.

(** * More of the code *)

(** ** Tags, the other way round *)

Section TagsBack.
Context {sodium : Sodium}.

(** X1: [toCtag] after [fromCtag] gives a C tag back exactly when it
    is the message, push or rekey tag; every other C tag, the final
    tag among them, comes back as the message tag.  And [toCtag] never
    produces the final tag, whatever the [SecretStreamTag]. *)
Theorem toCtag_fromCtag (c : Z) (t : SecretStreamTag) :
  tags_distinct ->
  (toCtag (fromCtag c) = c <->
   c = tag_message \/ c = tag_push \/ c = tag_rekey) /\
  (c <> tag_push -> c <> tag_rekey -> toCtag (fromCtag c) = tag_message) /\
  toCtag t <> tag_final.
Proof.
  intros Hd. pose proof Hd as (Hmp & Hmr & Hpr & Hfp & Hfr & Hfm).
  split; [|split].
  - unfold fromCtag.
    destruct (Z.eqb_spec c tag_push) as [-> | Hp].
    { unfold toCtag; simpl. split; auto. }
    destruct (Z.eqb_spec c tag_rekey) as [-> | Hr].
    { unfold toCtag; simpl. split; auto. }
    unfold toCtag; simpl. split.
    + intros <-. auto.
    + intros [-> | [-> | ->]]; congruence.
  - intros Hp Hr. rewrite fromCtag_other by assumption. reflexivity.
  - now apply toCtag_not_final.
Qed.
End TagsBack.

(** ** Scripts of encoder calls *)

Section EncoderScripts.
Context {sodium : Sodium} {W : Type} {writer : Writer W}.

Lemma emit_fields (e : @Encoder.T sodium W) (c : Bytes) (fin : bool) :
  Encoder.final (snd (Encoder.emit e c fin)) = fin /\
  Encoder.header (snd (Encoder.emit e c fin)) = Encoder.header e /\
  Encoder.state (snd (Encoder.emit e c fin)) = Encoder.state e /\
  Encoder.tag (snd (Encoder.emit e c fin)) = Encoder.tag e.
Proof.
  unfold Encoder.emit.
  destruct (io_Write (Encoder.out e) c) as [[n err] w]. repeat split.
Qed.

Lemma Close_fields (e : @Encoder.T sodium W) :
  Encoder.header (snd (Encoder.Close e)) = Encoder.header e /\
  (Encoder.final e = true -> Encoder.final (snd (Encoder.Close e)) = true).
Proof.
  unfold Encoder.Close, Encoder.seal. destruct (negb _).
  - split; [reflexivity|auto].
  - match goal with |- context [Encoder.emit ?x ?c ?f] =>
      pose proof (emit_fields x c f) as (Hf & Hh & _);
      destruct (Encoder.emit x c f) as [[n err] e2] end.
    simpl in *. split; [exact Hh|intros _; exact Hf].
Qed.

Lemma step_header (e : @Encoder.T sodium W) (o : op) :
  Encoder.header (step e o) = Encoder.header e.
Proof.
  destruct o as [b|b| |t|a]; cbn [step];
    try reflexivity; try apply Close_fields.
  - unfold Encoder.Write. destruct (Encoder.final e); [reflexivity|].
    unfold Encoder.seal. destruct (negb _); [reflexivity|].
    match goal with |- context [Encoder.emit ?x ?c ?f] =>
      now destruct (emit_fields x c f) as (_ & Hh & _) end.
  - unfold Encoder.WriteAndClose. destruct (Encoder.final e); [reflexivity|].
    unfold Encoder.seal. destruct (negb _); [reflexivity|].
    match goal with |- context [Encoder.emit ?x ?c ?f] =>
      now destruct (emit_fields x c f) as (_ & Hh & _) end.
Qed.

Lemma step_terminal (e : @Encoder.T sodium W) (o : op) :
  Encoder.final e = true ->
  Encoder.final (step e o) = true /\
  (is_Close o = false ->
   Encoder.out (step e o) = Encoder.out e /\
   Encoder.state (step e o) = Encoder.state e).
Proof.
  intros Hf. destruct o as [b|b| |t|a]; cbn [step is_Close].
  - rewrite Write_after_final by exact Hf. auto.
  - rewrite WriteAndClose_after_final by exact Hf. auto.
  - split; [now apply Close_fields|discriminate].
  - auto.
  - auto.
Qed.

(** X2: the terminal flag is never cleared.  From a terminal encoder,
    whatever calls follow, the encoder stays terminal; and as long as
    none of them is [Close], nothing more reaches the sink and the
    stream state does not move. *)
Theorem terminal_encoder_stays_terminal
        (ops : list op) (e : @Encoder.T sodium W) :
  Encoder.final e = true ->
  Encoder.final (run_ops e ops) = true /\
  (forallb (fun o => negb (is_Close o)) ops = true ->
   Encoder.out (run_ops e ops) = Encoder.out e /\
   Encoder.state (run_ops e ops) = Encoder.state e).
Proof.
  unfold run_ops. revert e.
  induction ops as [|o ops IH]; intros e Hf; cbn [fold_left forallb].
  - auto.
  - destruct (@step_terminal e o Hf) as [Hf' Hfrozen].
    destruct (IH (step e o) Hf') as [Hfin Hrest]. split; [exact Hfin|].
    intros Hall. apply andb_prop in Hall as [Ho Hall].
    apply negb_true_iff in Ho.
    destruct (Hfrozen Ho) as [Hout Hst]. destruct (Hrest Hall) as [Hout' Hst'].
    split; congruence.
Qed.

(** X3: the header does not change over the life of an encoder:
    whatever calls are made, [Header()] returns what it returned at
    first. *)
Theorem header_is_constant (ops : list op) (e : @Encoder.T sodium W) :
  Encoder.Header (run_ops e ops) = Encoder.Header e.
Proof.
  unfold run_ops, Encoder.Header. revert e.
  induction ops as [|o ops IH]; intros e; cbn [fold_left]; [reflexivity|].
  now rewrite IH, step_header.
Qed.

Lemma step_open (e : @Encoder.T sodium W) (o : op) :
  ends_stream o = false -> Encoder.final (step e o) = Encoder.final e.
Proof.
  destruct o as [b|b| |t|a]; cbn [step ends_stream];
    try discriminate; try reflexivity.
  intros _. unfold Encoder.Write.
  destruct (Encoder.final e) eqn:Hf; [exact Hf|].
  unfold Encoder.seal. destruct (negb _); [exact Hf|].
  match goal with |- context [Encoder.emit ?x ?c ?f] =>
    destruct (emit_fields x c f) as (H & _); rewrite H end.
  exact Hf.
Qed.

(** X4: only [WriteAndClose] and [Close] end the stream: a script of
    [Write], [SetTag] and [SetAdditionData] calls leaves the terminal
    flag as it found it, whatever the tags and whatever the sink or
    the primitive answer. *)
Theorem only_closing_calls_end_the_stream
        (ops : list op) (e : @Encoder.T sodium W) :
  forallb (fun o => negb (ends_stream o)) ops = true ->
  Encoder.final (run_ops e ops) = Encoder.final e.
Proof.
  unfold run_ops. revert e.
  induction ops as [|o ops IH]; intros e Hall; cbn [fold_left forallb] in *.
  - reflexivity.
  - apply andb_prop in Hall as [Ho Hall]. apply negb_true_iff in Ho.
    now rewrite (IH _ Hall), step_open.
Qed.
End EncoderScripts.

(** ** What reaches the sink *)

Section SinkFacts.
Context {sodium : Sodium}.

Lemma step_written (e : @Encoder.T sodium BufferWriter) (o : op) :
  exists new,
    written (Encoder.out (step e o)) = written (Encoder.out e) ++ new /\
    Forall (fun c => abytes <= length c) new.
Proof.
  assert (Hnone : exists new,
             written (Encoder.out e) = written (Encoder.out e) ++ new /\
             Forall (fun c => abytes <= length c) new).
  { exists []. now rewrite app_nil_r. }
  assert (Hone : forall m ctag,
             exists new,
               written (Encoder.out e)
               ++ [fill (make (length m + abytes))
                     (push_c (push (Encoder.state e) m (Encoder.ad e) ctag))]
               = written (Encoder.out e) ++ new /\
               Forall (fun c => abytes <= length c) new).
  { intros m ctag. eexists. split; [reflexivity|].
    constructor; [|constructor]. rewrite fill_length, make_length. lia. }
  destruct o as [b|b| |t|a]; cbn [step]; try exact Hnone.
  - unfold Encoder.Write. destruct (Encoder.final e); [exact Hnone|].
    unfold Encoder.seal. destruct (negb _); [exact Hnone|]. apply Hone.
  - unfold Encoder.WriteAndClose. destruct (Encoder.final e); [exact Hnone|].
    unfold Encoder.seal. destruct (negb _); [exact Hnone|]. apply Hone.
  - unfold Encoder.Close, Encoder.seal. destruct (negb _); [exact Hnone|].
    apply (Hone []).
Qed.

(** X5: over an in-memory sink the encoder only appends, and every
    frame it appends carries at least the overhead: after any script
    of calls the sink holds what it held before followed by frames of
    [abytes] bytes or more. *)
Theorem sink_grows_by_whole_frames
        (ops : list op) (e : @Encoder.T sodium BufferWriter) :
  exists new,
    written (Encoder.out (run_ops e ops)) = written (Encoder.out e) ++ new /\
    Forall (fun c => abytes <= length c) new.
Proof.
  unfold run_ops. revert e.
  induction ops as [|o ops IH]; intros e; cbn [fold_left].
  - exists []. now rewrite app_nil_r.
  - destruct (step_written e o) as (n1 & H1 & F1).
    destruct (IH (step e o)) as (n2 & H2 & F2).
    exists (n1 ++ n2). rewrite H2, H1, app_assoc. split; [reflexivity|].
    apply Forall_app. now split.
Qed.
End SinkFacts.

Section SealAndSink.
Context {sodium : Sodium} {W : Type} {writer : Writer W}.

(** X6: when push returns non-zero the call fails with ErrUnknown and a
    count of zero, nothing is handed to the sink, and the stream is not
    ended; the stream state is whatever push left.  This holds for
    [Write], [WriteAndClose] and [Close], each with the tag and message
    it seals. *)
Theorem failed_seal_writes_nothing (e : @Encoder.T sodium W) (b : Bytes) :
  Encoder.final e = false ->
  (push_rc (push (Encoder.state e) b (Encoder.ad e) (toCtag (Encoder.tag e)))
   <> 0%Z ->
   fst (Encoder.Write e b) = (0, Some ErrUnknown) /\
   Encoder.out (snd (Encoder.Write e b)) = Encoder.out e /\
   Encoder.final (snd (Encoder.Write e b)) = false) /\
  (push_rc (push (Encoder.state e) b (Encoder.ad e) tag_final) <> 0%Z ->
   fst (Encoder.WriteAndClose e b) = (0, Some ErrUnknown) /\
   Encoder.out (snd (Encoder.WriteAndClose e b)) = Encoder.out e /\
   Encoder.final (snd (Encoder.WriteAndClose e b)) = false) /\
  (push_rc (push (Encoder.state e) [] (Encoder.ad e) tag_final) <> 0%Z ->
   fst (Encoder.Close e) = Some ErrUnknown /\
   Encoder.out (snd (Encoder.Close e)) = Encoder.out e /\
   Encoder.final (snd (Encoder.Close e)) = false).
Proof.
  intros Hf. split; [|split]; intros Hrc; apply Z.eqb_neq in Hrc.
  - unfold Encoder.Write, Encoder.seal. rewrite Hf, Hrc. simpl. auto.
  - unfold Encoder.WriteAndClose, Encoder.seal. rewrite Hf, Hrc. simpl. auto.
  - unfold Encoder.Close, Encoder.seal. rewrite Hrc. simpl. auto.
Qed.

(** X7: once [WriteAndClose] has sealed its frame the stream is over
    for [Write] and [WriteAndClose], whatever the sink answered - an
    error included: both are then refused with ErrInvalidState and a
    count of zero, and leave the encoder as it is. *)
Theorem WriteAndClose_is_final_whatever_the_sink
        (e : @Encoder.T sodium W) (b b' : Bytes) :
  Encoder.final e = false ->
  push_rc (push (Encoder.state e) b (Encoder.ad e) tag_final) = 0%Z ->
  fst (Encoder.WriteAndClose e b)
  = fst (io_Write (Encoder.out e)
           (sealed_frame (Encoder.state e) b (Encoder.ad e) tag_final)) /\
  Encoder.final (snd (Encoder.WriteAndClose e b)) = true /\
  Encoder.Write (snd (Encoder.WriteAndClose e b)) b'
  = (0, Some ErrInvalidState, snd (Encoder.WriteAndClose e b)) /\
  Encoder.WriteAndClose (snd (Encoder.WriteAndClose e b)) b'
  = (0, Some ErrInvalidState, snd (Encoder.WriteAndClose e b)).
Proof.
  intros Hf Hrc.
  assert (H : fst (Encoder.WriteAndClose e b)
              = fst (io_Write (Encoder.out e)
                       (sealed_frame (Encoder.state e) b (Encoder.ad e)
                          tag_final)) /\
              Encoder.final (snd (Encoder.WriteAndClose e b)) = true).
  { unfold Encoder.WriteAndClose, Encoder.seal, Encoder.emit, sealed_frame.
    rewrite Hf, Hrc. simpl.
    destruct (io_Write _ _) as [[n err] w]. auto. }
  destruct H as [H1 H2]. split; [exact H1|]. split; [exact H2|]. split.
  - now apply Write_after_final.
  - now apply WriteAndClose_after_final.
Qed.
End SealAndSink.

(** ** More on [Read] *)

Section ReadFacts.
Context {sodium : Sodium} {R : Type} {reader : Reader R}.

Lemma readInto_length (r : R) (n : nat) :
  length (fst (fst (Decoder.readInto r n))) <= n.
Proof.
  unfold Decoder.readInto. destruct (io_Read r n) as [[data err] r'].
  simpl. rewrite length_firstn. lia.
Qed.

Lemma readLoop_bound (fuel : nat) :
  forall f f' : @Decoder.frame R,
    Decoder.readLoop fuel f = Done (inr f') ->
    Decoder.f_l f' <= Nat.max (Decoder.f_l f) (2 * abytes - 2).
Proof.
  induction fuel as [|fuel IH]; intros f f'; simpl;
    destruct (Nat.leb_spec abytes (Decoder.f_l f)) as [Hle|Hlt].
  - intros [= <-]. lia.
  - destruct (Decoder.f_err f); discriminate.
  - intros [= <-]. lia.
  - destruct (Decoder.f_err f); [discriminate|].
    pose proof (readInto_length (Decoder.f_in f) (Decoder.f_l f)) as Hlen.
    destruct (Decoder.readInto (Decoder.f_in f) (Decoder.f_l f))
      as [[data err] r].
    simpl in Hlen. intros H. apply IH in H. simpl in H. lia.
Qed.

Lemma readFrame_bound (fuel : nat) (r : R) (bl : nat) (f : @Decoder.frame R) :
  Decoder.readFrame fuel r bl = Done (inr f) ->
  Decoder.f_l f <= Nat.max (bl + abytes) (2 * abytes - 2).
Proof.
  unfold Decoder.readFrame.
  pose proof (readInto_length r (length (make (bl + abytes)))) as Hlen.
  destruct (Decoder.readInto r (length (make (bl + abytes))))
    as [[data err] r1].
  simpl in Hlen. rewrite make_length in Hlen.
  intros H. apply readLoop_bound in H. simpl in H. lia.
Qed.

(** X8: the count [Read] returns is at most [len(b)], or [abytes - 2]
    when that is larger - the loop can double [l] up to [2*abytes - 2]
    whatever the size of the buffer - and the caller's buffer keeps
    its length. *)
Theorem Read_count_bound
        (fuel : nat) (e e' : @Decoder.T sodium R) (b b' : Bytes)
        (n : nat) (err : option error) :
  Decoder.Read fuel e b = Done (n, err, e', b') ->
  n <= Nat.max (length b) (abytes - 2) /\ length b' = length b.
Proof.
  unfold Decoder.Read. destruct (Decoder.final e).
  { intros [= <- _ _ <-]. split; [lia|reflexivity]. }
  destruct (Decoder.readFrame fuel (Decoder.in_ e) (length b))
    as [[r|f]| |] eqn:Hfr; try discriminate.
  - intros [= <- _ _ <-]. split; [lia|reflexivity].
  - apply readFrame_bound in Hfr.
    destruct (Decoder.f_c f); [discriminate|].
    intros [= <- _ _ <-]. rewrite fill_length. split; [lia|reflexivity].
Qed.

(** X9: a decoder becomes terminal only through a frame whose tag
    output is the final tag: a [Read] that leaves a decoder terminal
    which was not returned io.EOF, and [Tag()] is what the final tag
    converts to. *)
Theorem Read_ends_only_with_EOF
        (fuel : nat) (e e' : @Decoder.T sodium R) (b b' : Bytes)
        (n : nat) (err : option error) :
  Decoder.final e = false ->
  Decoder.Read fuel e b = Done (n, err, e', b') ->
  Decoder.final e' = true ->
  err = Some EOF /\ Decoder.Tag e' = fromCtag tag_final.
Proof.
  intros Hf. unfold Decoder.Read. rewrite Hf.
  destruct (Decoder.readFrame fuel (Decoder.in_ e) (length b))
    as [[r|f]| |]; try discriminate.
  - intros [= _ _ <- _]. simpl. discriminate.
  - destruct (Decoder.f_c f); [discriminate|].
    intros [= _ <- <- _]. cbn [Decoder.final Decoder.Tag Decoder.tag].
    match goal with |- context [(?c =? tag_final)%Z] =>
      destruct (Z.eqb_spec c tag_final) as [-> | _] end.
    + auto.
    + discriminate.
Qed.

(** X10: a terminal decoder is inert: every further [Read] returns a
    count of zero with ErrInvalidState, takes nothing from the source,
    advances no state and leaves the caller's buffer and [Tag()] as
    they were, however many are made. *)
Theorem terminal_decoder_is_inert
        (fuel : nat) (lens : list nat) (d : @Decoder.T sodium R) :
  Decoder.final d = true ->
  read_all fuel d lens
  = Done (map (fun _ => {| r_bytes := []; r_tag := Decoder.Tag d;
                           r_err := Some ErrInvalidState |}) lens, d).
Proof.
  intros Hf. induction lens as [|n lens IH]; cbn [read_all map].
  - reflexivity.
  - rewrite (@Read_after_final sodium R reader fuel d (make n) Hf), IH.
    reflexivity.
Qed.

(** X11: when the first read of the source brings fewer than [abytes]
    bytes together with an error, [Read] returns a count of zero and
    ErrDecryptSS, whatever that error was - io.EOF or an I/O failure -
    and the decoder keeps its state, tag and flag. *)
Theorem Read_replaces_source_error
        (fuel : nat) (e : @Decoder.T sodium R) (b data : Bytes)
        (err : error) (r : R) :
  Decoder.final e = false ->
  io_Read (Decoder.in_ e) (length b + abytes) = (data, Some err, r) ->
  length (firstn (length b + abytes) data) < abytes ->
  Decoder.Read fuel e b
  = Done (0, Some ErrDecryptSS,
          {| Decoder.in_ := r; Decoder.state := Decoder.state e;
             Decoder.ad := Decoder.ad e; Decoder.tag := Decoder.tag e;
             Decoder.final := false |}, b).
Proof.
  intros Hf Hio Hlen. unfold Decoder.Read, Decoder.readFrame, Decoder.readInto.
  rewrite Hf, make_length, Hio.
  destruct fuel; cbn [Decoder.readLoop Decoder.f_l Decoder.f_err Decoder.f_in];
    destruct (Nat.leb_spec abytes (length (firstn (length b + abytes) data)));
    try lia; reflexivity.
Qed.

(** X12: when the first read of the source brings [abytes] bytes or
    more, [Read] reads the source that once, for any fuel, and opens
    exactly those bytes; if the open succeeds with a tag other than
    the final tag, [Read] returns the plaintext count together with
    whatever error the source returned with the data - io.EOF
    included - and the decoder is not terminal. *)
Theorem Read_reads_once
        (fuel : nat) (e : @Decoder.T sodium R) (b data : Bytes)
        (err : option error) (r : R) (t : Z) :
  0 < abytes ->
  Decoder.final e = false ->
  io_Read (Decoder.in_ e) (length b + abytes) = (data, err, r) ->
  abytes <= length (firstn (length b + abytes) data) ->
  pull_rc (pull (Decoder.state e)
             (fill (make (length b + abytes))
                (firstn (length b + abytes) data))
             (length (firstn (length b + abytes) data))
             (Decoder.ad e)) = 0%Z ->
  pull_tag (pull (Decoder.state e)
              (fill (make (length b + abytes))
                 (firstn (length b + abytes) data))
              (length (firstn (length b + abytes) data))
              (Decoder.ad e)) = Some t ->
  t <> tag_final ->
  let p := pull (Decoder.state e)
             (fill (make (length b + abytes))
                (firstn (length b + abytes) data))
             (length (firstn (length b + abytes) data))
             (Decoder.ad e) in
  Decoder.Read fuel e b
  = Done (length (firstn (length b + abytes) data) - abytes, err,
          {| Decoder.in_ := r; Decoder.state := pull_state p;
             Decoder.ad := Decoder.ad e; Decoder.tag := fromCtag t;
             Decoder.final := false |},
          fill b (pull_m p)) /\
  length (firstn (length b + abytes) data) - abytes <= length b.
Proof.
  intros Hpos Hf Hio Hlen Hrc Htag Hne. cbv zeta.
  assert (Hfr : Decoder.readFrame fuel (Decoder.in_ e) (length b)
                = Done (inr {| Decoder.f_in := r;
                               Decoder.f_c :=
                                 fill (make (length b + abytes))
                                   (firstn (length b + abytes) data);
                               Decoder.f_l :=
                                 length (firstn (length b + abytes) data);
                               Decoder.f_err := err |})).
  { unfold Decoder.readFrame, Decoder.readInto. rewrite make_length, Hio.
    now apply readLoop_ready. }
  rewrite (@Read_assembled sodium R reader fuel e b _ Hpos Hf Hfr).
  cbn [Decoder.f_c Decoder.f_l Decoder.f_in Decoder.f_err].
  rewrite Htag, Hrc.
  destruct (Z.eqb_spec t tag_final); [contradiction|]. simpl negb.
  split; [reflexivity|]. rewrite length_firstn. lia.
Qed.
End ReadFacts.

(** ** The constructors *)

Section Constructors.
Context {sodium : Sodium}.

(** X13: with a key and a header of the right sizes, the outcome of
    [MakeSecretStreamXCPDecoder] is decided by init_pull alone:
    ErrInvalidHeader and no decoder when it returns non-zero, and
    otherwise a decoder over the given source with the state init_pull
    derived, no associated data, the tag Message, not terminal. *)
Theorem MakeSecretStreamXCPDecoder_follows_init_pull
        {R : Type} (key hdr : Bytes) (i : R) :
  0 < keybytes -> 0 < headerbytes ->
  length key = keybytes ->
  length hdr = headerbytes ->
  Decoder.MakeSecretStreamXCPDecoder key i hdr
  = if (fst (init_pull hdr key) =? 0)%Z
    then Done (Some {| Decoder.in_ := i;
                       Decoder.state := snd (init_pull hdr key);
                       Decoder.ad := [];
                       Decoder.tag := SecretStreamTag_Message;
                       Decoder.final := false |}, None)
    else Done (None, Some ErrInvalidHeader).
Proof.
  intros Hkp Hhp Hk Hh.
  unfold Decoder.MakeSecretStreamXCPDecoder,
    Decoder.MakeSecretStreamXCPDecoderWith, checkTypedSize.
  cbn [Length Size]. rewrite Hk, Hh, !Nat.eqb_refl.
  destruct hdr as [|h hdr]; [simpl in Hh; lia|].
  destruct key as [|k key]; [simpl in Hk; lia|].
  destruct (init_pull (h :: hdr) (k :: key)) as [rc st]. simpl.
  now destruct (rc =? 0)%Z.
Qed.

(** X14: an encoder that [MakeSecretStreamXCPEncoder] returns is
    fresh: it writes to the sink it was given, its header has exactly
    [headerbytes] bytes whatever init_push stored, no associated data
    is pending, the pending tag is Message, it is not terminal, and
    its state is the one init_push derived with return code zero. *)
Theorem MakeSecretStreamXCPEncoder_is_fresh
        {W : Type} `{Writer W} (key : Bytes) (o : W)
        (e : @Encoder.T sodium W) :
  Encoder.MakeSecretStreamXCPEncoder key o = Done e ->
  Encoder.out e = o /\
  length (Encoder.Header e) = headerbytes /\
  Encoder.ad e = [] /\
  Encoder.tag e = SecretStreamTag_Message /\
  Encoder.final e = false /\
  fst (fst (init_push key)) = 0%Z /\
  Encoder.state e = snd (fst (init_push key)).
Proof.
  unfold Encoder.MakeSecretStreamXCPEncoder.
  destruct (checkTypedSize (SecretStreamXCPKey key)); try discriminate.
  destruct (make headerbytes) as [|z h] eqn:Hm; [discriminate|].
  destruct key as [|k key]; [discriminate|].
  destruct (init_push (k :: key)) as [[rc st] hdr].
  destruct (Z.eqb_spec rc 0) as [-> | Hrc]; simpl; [|discriminate].
  intros [= <-]. cbn [Encoder.out Encoder.Header Encoder.header Encoder.ad
                        Encoder.tag Encoder.final Encoder.state fst snd].
  rewrite fill_length, <- Hm, make_length. repeat split.
Qed.

(** X15: [MakeSecretStreamXCPKey] returns a key of exactly [Size()]
    bytes whatever keygen stored - the bytes keygen stored when it
    filled the buffer - and panics only when the key size is zero. *)
Theorem MakeSecretStreamXCPKey_has_key_size (rnd : Bytes) :
  0 < keybytes ->
  exists key,
    MakeSecretStreamXCPKey rnd = Done key /\
    Length (SecretStreamXCPKey key) = Size (SecretStreamXCPKey key) /\
    (length rnd = keybytes -> key = rnd).
Proof.
  intros Hpos. unfold MakeSecretStreamXCPKey.
  destruct (make keybytes) as [|z b] eqn:Hm.
  { apply (f_equal (@length Z)) in Hm. rewrite make_length in Hm.
    simpl in Hm. lia. }
  eexists. split; [reflexivity|]. cbn [Length Size]. split.
  - now rewrite fill_length, <- Hm, make_length.
  - intros Hr. apply fill_exact. now rewrite <- Hm, make_length.
Qed.
End Constructors.

(** ** One frame under any tag *)

Section AnyTag.
Context {sodium : Sodium}.

Lemma Write_on_buffer (e : @Encoder.T sodium BufferWriter) (m : Bytes) :
  sodium_contract ->
  Encoder.final e = false ->
  Encoder.Write e m
  = (length m + abytes, None,
     {| Encoder.out :=
          {| written := written (Encoder.out e)
               ++ [sealed_frame (Encoder.state e) m (Encoder.ad e)
                     (toCtag (Encoder.tag e))] |};
        Encoder.header := Encoder.header e;
        Encoder.state :=
          push_state (push (Encoder.state e) m (Encoder.ad e)
                        (toCtag (Encoder.tag e)));
        Encoder.ad := Encoder.ad e;
        Encoder.tag := Encoder.tag e;
        Encoder.final := false |}).
Proof.
  intros C Hf. unfold Encoder.Write. rewrite Hf.
  pose proof (emit_sealed e m (toCtag (Encoder.tag e)) false C) as E.
  destruct (Encoder.seal e m (toCtag (Encoder.tag e))) as [[rc c] e1] eqn:Hs.
  assert (He1 : Encoder.final e1 = false).
  { unfold Encoder.seal in Hs. injection Hs as _ _ <-. exact Hf. }
  rewrite He1. exact E.
Qed.

Lemma fromCtag_toCtag_any (t : SecretStreamTag) :
  tags_distinct ->
  fromCtag (toCtag t)
  = if (t =? SecretStreamTag_Sync)%Z then SecretStreamTag_Sync
    else if (t =? SecretStreamTag_Rekey)%Z then SecretStreamTag_Rekey
         else SecretStreamTag_Message.
Proof.
  intros (Hmp & Hmr & Hpr & _). unfold toCtag.
  destruct (t =? SecretStreamTag_Sync)%Z.
  { unfold fromCtag. now rewrite Z.eqb_refl. }
  destruct (t =? SecretStreamTag_Rekey)%Z.
  { unfold fromCtag. rewrite Z.eqb_refl.
    destruct (Z.eqb_spec tag_rekey tag_push); [now elim Hpr|reflexivity]. }
  now apply fromCtag_other.
Qed.

(** X16: a frame written by [SetTag(t); Write(m)], for any value [t]
    of the tag type, is read by a decoder in step with the encoder
    (same state and associated data, that frame next in its source,
    a buffer of [len(m)] bytes) as [m], with no error and without
    ending the stream; [Tag()] is then Sync for 1, Rekey for 2 and
    Message for every other value, and the decoder's state is again
    the encoder's. *)
Theorem Write_then_Read
        (fuel : nat) (e : @Encoder.T sodium BufferWriter)
        (d : @Decoder.T sodium ChunkReader) (t : SecretStreamTag)
        (m b : Bytes) (rest : list Bytes) :
  sodium_contract ->
  Encoder.final e = false ->
  Decoder.final d = false ->
  Decoder.state d = Encoder.state e ->
  Decoder.ad d = Encoder.ad e ->
  length b = length m ->
  pending (Decoder.in_ d)
  = skipn (length (written (Encoder.out e)))
          (written (Encoder.out
                      (snd (Encoder.Write (Encoder.SetTag e t) m))))
    ++ rest ->
  Decoder.Read fuel d b
  = Done (length m, None,
          {| Decoder.in_ := {| pending := rest |};
             Decoder.state :=
               Encoder.state (snd (Encoder.Write (Encoder.SetTag e t) m));
             Decoder.ad := Decoder.ad d;
             Decoder.tag :=
               if (t =? SecretStreamTag_Sync)%Z then SecretStreamTag_Sync
               else if (t =? SecretStreamTag_Rekey)%Z
                    then SecretStreamTag_Rekey
                    else SecretStreamTag_Message;
             Decoder.final := false |},
          m).
Proof.
  intros C He Hd Hst Had Hb Hp.
  rewrite (@Write_on_buffer (Encoder.SetTag e t) m C He) in *.
  cbn [snd Encoder.out Encoder.state Encoder.ad Encoder.tag Encoder.SetTag
       written] in *.
  rewrite skipn_app, skipn_all, Nat.sub_diag in Hp. cbn [skipn app] in Hp.
  rewrite <- Hst, <- Had in *.
  rewrite (@Read_sealed sodium fuel d b m (toCtag t) rest C Hd Hb Hp).
  destruct (Z.eqb_spec (toCtag t) tag_final) as [E|_];
    [now apply toCtag_not_final in E; [|apply (tags_ok C)]|].
  now rewrite (fromCtag_toCtag_any t (tags_ok C)).
Qed.
End AnyTag.

(** ** Concrete runs of the encoder *)

#[local] Existing Instance Model.sodium.


Lemma model_encoder_made :
  Encoder.MakeSecretStreamXCPEncoder Model.key0 {| written := [] |}
  = Done model_encoder.
Proof. reflexivity. Qed.

Lemma Write_seals_frame_witness :
  writer_full BufferWriter /\
  Encoder.final model_encoder_sync = false /\
  push_rc (push (Encoder.state model_encoder_sync) [104; 105]%Z [1; 2; 3]%Z
             tag_push) = 0%Z /\
  Encoder.Write model_encoder_sync [104; 105]%Z
  = (19, None,
     {| Encoder.out :=
          {| written := [[17; 120; 121; 232; 232; 232; 232; 232; 232; 232;
                          232; 232; 232; 232; 232; 232; 232; 232; 232]%Z] |};
        Encoder.header := Model.hdr0;
        Encoder.state := (17%Z : @State Model.sodium);
        Encoder.ad := [1; 2; 3]%Z;
        Encoder.tag := SecretStreamTag_Sync;
        Encoder.final := false |}) /\
  push_c (push (Encoder.state model_encoder_sync) [104; 105]%Z [1; 2; 3]%Z
            tag_push)
  <> push_c (push (Encoder.state model_encoder_sync) [104; 105]%Z []
               tag_message).
Proof.
  assert (Hf : Encoder.final model_encoder_sync = false) by reflexivity.
  assert (Hrc : push_rc (push (Encoder.state model_encoder_sync) [104; 105]%Z
                           [1; 2; 3]%Z tag_push) = 0%Z) by reflexivity.
  split; [exact BufferWriter_full|]. split; [exact Hf|]. split; [exact Hrc|].
  split; [|vm_compute; discriminate].
  destruct (@Write_seals_frame Model.sodium BufferWriter _ model_encoder_sync
              [104; 105]%Z BufferWriter_full Hf Hrc)
    as (_ & _ & n & err & w & Hio & HW & _).
  vm_compute in Hio. injection Hio as <- <- <-. exact HW.
Defined.

(** C1, at the input where the code departs from it: [Close] on an
    encoder that a first [Close] has made terminal is not refused; it
    seals and writes a second final frame and reports no error. *)
Theorem Close_after_Close_not_refused :
  Encoder.final (snd (Encoder.Close model_encoder)) = true /\
  fst (Encoder.Close (snd (Encoder.Close model_encoder))) = None /\
  fst (Encoder.Close (snd (Encoder.Close model_encoder)))
    <> Some ErrInvalidState /\
  length (written (Encoder.out
            (snd (Encoder.Close (snd (Encoder.Close model_encoder)))))) = 2.
Proof. vm_compute. repeat split; discriminate. Qed.

(** The same after [WriteAndClose]. *)
Lemma Close_after_WriteAndClose_not_refused :
  let e1 := snd (Encoder.WriteAndClose model_encoder [119; 111]%Z) in
  Encoder.final e1 = true /\ fst (Encoder.Close e1) = None.
Proof. vm_compute. split; reflexivity. Qed.

(** ** Concrete runs of the decoder *)

Lemma model_decoder_made (chunks : list Bytes) :
  Decoder.MakeSecretStreamXCPDecoder Model.key0 {| pending := chunks |}
    (Encoder.Header model_encoder)
  = Done (Some (model_decoder chunks), None).
Proof. reflexivity. Qed.

(** C2, at the inputs where the code departs from it.  A buffer of 3
    bytes asks for a frame of 20.  From a source that answers one byte
    at a time the loop reads into [c[:l]]: each byte lands on index 0,
    over the one before, and the loop leaves at [l = 17] with the
    seventeenth byte alone in the frame.  From a source that answers 17
    bytes and then 3 the loop is not entered: the frame is taken to be
    the first 17 bytes. *)
Theorem short_reads_overwrite_the_frame :
  Decoder.readFrame 100 byte_by_byte 3
  = Done (inr {| Decoder.f_in := {| pending := [[18]; [19]; [20]]%Z |};
                 Decoder.f_c := 17%Z :: repeat 0%Z 19;
                 Decoder.f_l := 17;
                 Decoder.f_err := None |}) /\
  Decoder.readFrame 100 seventeen_then_three 3
  = Done (inr {| Decoder.f_in := {| pending := [[18; 19; 20]]%Z |};
                 Decoder.f_c := firstn 17 twenty ++ [0; 0; 0]%Z;
                 Decoder.f_l := 17;
                 Decoder.f_err := None |}).
Proof. split; vm_compute; reflexivity. Qed.

(** C7, at the input where the code departs from it.  The source
    answers the first [Read] with no bytes and no error, then holds one
    byte and ends: fewer than [abytes] bytes in all.  With [l = 0] the
    loop reads into [c[:0]], which takes nothing from the source, so
    [l] stays 0 and no error ever comes: [Read] does not return,
    whatever the fuel. *)
Theorem truncated_source_never_answered :
  forall fuel : nat,
    Decoder.Read fuel (model_decoder [[]; [1%Z]]) (make 2) = OutOfFuel.
Proof.
  apply (@Read_spins_on_empty_answer Model.sodium
           (model_decoder [[]; [1%Z]]) (make 2) [1%Z] []).
  - vm_compute; lia.
  - reflexivity.
  - discriminate.
  - reflexivity.
Qed.

(** The spec's scenario read back: "world" arrives with io.EOF, and
    the tag [Tag()] reports for it is Message, which is not the tag the
    frame was sealed with. *)
Lemma final_frame_reported_as_Message :
  received_of (read_all 0 (model_decoder hello_world_frames) [5; 5])
  = Some [ {| r_bytes := hello; r_tag := SecretStreamTag_Message;
              r_err := None |};
           {| r_bytes := world; r_tag := SecretStreamTag_Message;
              r_err := Some EOF |} ] /\
  toCtag SecretStreamTag_Message <> tag_final.
Proof. split; [reflexivity|vm_compute; discriminate]. Qed.

Lemma Read_final_reports_Message_witness :
  sodium_contract /\
  exists e',
    Decoder.Read 0 model_decoder_second (make 5)
    = Done (5, Some EOF, e', world) /\
    Decoder.final e' = true /\
    Decoder.Tag e' = SecretStreamTag_Message /\
    toCtag (Decoder.Tag e') <> tag_final /\
    Decoder.Read 0 e' (make 5) = Done (0, Some ErrInvalidState, e', make 5).
Proof.
  split; [exact ModelFacts.model_contract|].
  apply (@Read_final_reports_Message Model.sodium 0 _ (make 5) (make 5)
           world [] ModelFacts.model_contract); reflexivity.
Defined.

Lemma Read_truncated_example :
  Decoder.final (model_decoder [[1; 2; 3]; [4]]%Z) = false /\
  pending_bytes [[1; 2; 3]; [4]]%Z < abytes /\
  hd_error [[1; 2; 3]; [4]]%Z <> Some [] /\
  2 + pending_bytes [[1; 2; 3]; [4]]%Z < 7 /\
  exists r,
    Decoder.Read 7 (model_decoder [[1; 2; 3]; [4]]%Z) (make 2)
    = Done (0, Some ErrDecryptSS,
            {| Decoder.in_ := r;
               Decoder.state := Decoder.state (model_decoder [[1; 2; 3]; [4]]%Z);
               Decoder.ad := [];
               Decoder.tag := SecretStreamTag_Message;
               Decoder.final := false |}, make 2).
Proof.
  split; [reflexivity|]. split; [vm_compute; lia|].
  split; [discriminate|]. split; [vm_compute; lia|].
  apply (@Read_truncated Model.sodium (model_decoder [[1; 2; 3]; [4]]%Z)
           (make 2) 7).
  - reflexivity.
  - vm_compute; lia.
  - discriminate.
  - vm_compute; lia.
Defined.

(** A header of 23 bytes: the constructor panics; and were the size
    check to let it through, init_pull would accept it and a decoder
    would be returned.  Neither is ErrInvalidHeader. *)
Lemma wrong_size_header_is_not_InvalidHeader :
  Decoder.MakeSecretStreamXCPDecoder Model.key0
    {| pending := hello_world_frames |} (repeat 66%Z 23)
  = Panics /\
  Decoder.MakeSecretStreamXCPDecoderWith (fun _ => Done tt) Model.key0
    {| pending := hello_world_frames |} (repeat 66%Z 23)
  = Done (Some {| Decoder.in_ := {| pending := hello_world_frames |};
                  Decoder.state :=
                    (Model.init (repeat 66%Z 23) Model.key0
                     : @State Model.sodium);
                  Decoder.ad := [];
                  Decoder.tag := SecretStreamTag_Message;
                  Decoder.final := false |}, None).
Proof. split; reflexivity. Qed.

Lemma MakeSecretStreamXCPDecoder_header_size_witness :
  length Model.key0 = keybytes /\
  length (repeat 66%Z 23) <> headerbytes /\
  Decoder.MakeSecretStreamXCPDecoder Model.key0
    {| pending := hello_world_frames |} (repeat 66%Z 23)
  = Panics.
Proof.
  split; [reflexivity|]. split; [vm_compute; discriminate|].
  apply (@MakeSecretStreamXCPDecoder_header_size Model.sodium ChunkReader
           Model.key0 (repeat 66%Z 23) {| pending := hello_world_frames |}).
  - reflexivity.
  - vm_compute; discriminate.
Defined.


(** On the instance whose failing open leaves 255 in the tag output,
    the tampered frame gives ErrDecryptSS with a count of 2. *)
Lemma failed_open_with_other_tag_is_ErrDecryptSS :
  Decoder.Read 0 (model_decoder [tampered_frame]) (make 2)
  = Done (2, Some ErrDecryptSS,
          {| Decoder.in_ := {| pending := [] |};
             Decoder.state := Decoder.state (model_decoder [tampered_frame]);
             Decoder.ad := [];
             Decoder.tag := SecretStreamTag_Message;
             Decoder.final := false |}, make 2).
Proof. reflexivity. Qed.


(** The associated data set once is still pending after the [Write]
    that used it, the next [Write] seals under it, and that frame is
    not the one sealed under empty associated data; a decoder that
    set it once opens both frames. *)
Lemma additional_data_not_reset :
  Encoder.ad model_encoder_ad = [1; 2; 3]%Z /\
  written (Encoder.out (snd (Encoder.Write model_encoder_ad [33%Z])))
  = written (Encoder.out model_encoder_ad)
    ++ [sealed_frame (Encoder.state model_encoder_ad) [33%Z] [1; 2; 3]%Z
          tag_message] /\
  sealed_frame (Encoder.state model_encoder_ad) [33%Z] [1; 2; 3]%Z tag_message
  <> sealed_frame (Encoder.state model_encoder_ad) [33%Z] [] tag_message /\
  received_of
    (read_all 0
       (Decoder.SetAdditionData
          (model_decoder
             (written (Encoder.out
                         (snd (Encoder.Write model_encoder_ad [33%Z])))))
          [1; 2; 3]%Z)
       [2; 1])
  = Some [ {| r_bytes := [104; 105]%Z; r_tag := SecretStreamTag_Message;
              r_err := None |};
           {| r_bytes := [33%Z]; r_tag := SecretStreamTag_Message;
              r_err := None |} ].
Proof.
  split; [reflexivity|]. split; [reflexivity|].
  split; [vm_compute; discriminate|reflexivity].
Qed.

(** A stream written as Sync "a", then Rekey pending and
    [WriteAndClose("b")]: the closing frame is read back under the tag
    Message, which is neither the pending tag nor the final tag it was
    sealed with. *)
Lemma closing_frame_tag_not_recovered :
  received_of (read_all 0 (model_decoder sync_rekey_frames) [1; 1])
  = Some [ {| r_bytes := [97%Z]; r_tag := SecretStreamTag_Sync;
              r_err := None |};
           {| r_bytes := [98%Z]; r_tag := SecretStreamTag_Message;
              r_err := Some EOF |} ] /\
  SecretStreamTag_Message <> SecretStreamTag_Rekey /\
  toCtag SecretStreamTag_Message <> tag_final.
Proof.
  split; [reflexivity|]. split; [discriminate|vm_compute; discriminate].
Qed.

Lemma stream_round_trip_witness :
  sodium_contract /\
  length Model.key0 = keybytes /\
  Forall (fun tm => public_tag (fst tm))
         [(SecretStreamTag_Message, hello); (SecretStreamTag_Sync, world)] /\
  exists e0 d0 dN,
    Encoder.MakeSecretStreamXCPEncoder Model.key0 {| written := [] |}
    = Done e0 /\
    Decoder.MakeSecretStreamXCPDecoder Model.key0
      {| pending :=
           written (Encoder.out
                      (close_with
                         (write_all (Encoder.SetAdditionData e0 [9%Z])
                            [(SecretStreamTag_Message, hello);
                             (SecretStreamTag_Sync, world)])
                         ByClose)) |}
      (Encoder.Header e0)
    = Done (Some d0, None) /\
    read_all 0 (Decoder.SetAdditionData d0 [9%Z]) [5; 5; 0]
    = Done (expected [(SecretStreamTag_Message, hello);
                      (SecretStreamTag_Sync, world)] ByClose, dN) /\
    Decoder.final dN = true /\
    pending (Decoder.in_ dN) = [].
Proof.
  assert (Hpub : Forall (fun tm : SecretStreamTag * Bytes => public_tag (fst tm))
                   [(SecretStreamTag_Message, hello);
                    (SecretStreamTag_Sync, world)]).
  { constructor; [left; reflexivity|].
    constructor; [right; left; reflexivity|]. constructor. }
  split; [exact ModelFacts.model_contract|]. split; [reflexivity|].
  split; [exact Hpub|].
  exact (@stream_round_trip Model.sodium 0 Model.key0 [9%Z]
           [(SecretStreamTag_Message, hello); (SecretStreamTag_Sync, world)]
           ByClose ModelFacts.model_contract eq_refl Hpub).
Defined.

(** ** Concrete runs for the rest of the code *)

Lemma toCtag_fromCtag_witness :
  tags_distinct /\
  toCtag (fromCtag 3%Z) = 0%Z /\
  toCtag 7%Z <> 3%Z.
Proof.
  split; [exact model_tags_distinct|].
  destruct (@toCtag_fromCtag Model.sodium 3%Z 7%Z model_tags_distinct)
    as (_ & H2 & H3).
  split; [apply H2; discriminate|exact H3].
Defined.

Lemma terminal_encoder_stays_terminal_witness :
  Encoder.final (snd (Encoder.Close model_encoder)) = true /\
  Encoder.final
    (run_ops (snd (Encoder.Close model_encoder))
       [OpWrite hello; OpSetTag SecretStreamTag_Sync; OpWriteAndClose world])
  = true /\
  Encoder.out
    (run_ops (snd (Encoder.Close model_encoder))
       [OpWrite hello; OpSetTag SecretStreamTag_Sync; OpWriteAndClose world])
  = Encoder.out (snd (Encoder.Close model_encoder)).
Proof.
  assert (Hf : Encoder.final (snd (Encoder.Close model_encoder)) = true)
    by reflexivity.
  split; [exact Hf|].
  destruct (@terminal_encoder_stays_terminal Model.sodium BufferWriter _
              [OpWrite hello; OpSetTag SecretStreamTag_Sync;
               OpWriteAndClose world]
              (snd (Encoder.Close model_encoder)) Hf) as [H1 H2].
  split; [exact H1|]. apply H2. reflexivity.
Defined.

Lemma only_closing_calls_end_the_stream_witness :
  Encoder.final
    (run_ops model_encoder
       [OpSetTag SecretStreamTag_Rekey; OpWrite hello;
        OpSetAdditionData [1%Z]; OpWrite world])
  = Encoder.final model_encoder.
Proof.
  apply (@only_closing_calls_end_the_stream Model.sodium BufferWriter _
           [OpSetTag SecretStreamTag_Rekey; OpWrite hello;
            OpSetAdditionData [1%Z]; OpWrite world]
           model_encoder).
  reflexivity.
Defined.

Lemma failed_seal_writes_nothing_witness :
  Encoder.final strict_encoder = false /\
  push_rc (@push strict_sodium (Encoder.state strict_encoder) hello [] 0%Z)
  <> 0%Z /\
  fst (Encoder.Write strict_encoder hello) = (0, Some ErrUnknown) /\
  written (Encoder.out (snd (Encoder.Write strict_encoder hello))) = [] /\
  fst (Encoder.Close (Encoder.SetAdditionData strict_encoder hello))
  = Some ErrUnknown.
Proof.
  split; [reflexivity|]. split; [vm_compute; discriminate|].
  assert (Hf : Encoder.final strict_encoder = false) by reflexivity.
  destruct (@failed_seal_writes_nothing strict_sodium BufferWriter _
              strict_encoder hello Hf) as (HW & _ & _).
  destruct HW as (H1 & H2 & _); [vm_compute; discriminate|].
  split; [exact H1|]. split; [now rewrite H2|].
  destruct (@failed_seal_writes_nothing strict_sodium BufferWriter _
              (Encoder.SetAdditionData strict_encoder hello) [] Hf)
    as (_ & _ & HC).
  destruct HC as (H3 & _); [vm_compute; discriminate|]. exact H3.
Defined.

Lemma WriteAndClose_is_final_whatever_the_sink_witness :
  Encoder.final failing_encoder = false /\
  fst (Encoder.WriteAndClose failing_encoder hello) = (0, Some (ErrIO 5)) /\
  Encoder.final (snd (Encoder.WriteAndClose failing_encoder hello)) = true /\
  fst (Encoder.WriteAndClose
         (snd (Encoder.WriteAndClose failing_encoder hello)) hello)
  = (0, Some ErrInvalidState).
Proof.
  split; [reflexivity|].
  assert (Hf : Encoder.final failing_encoder = false) by reflexivity.
  assert (Hrc : push_rc (push (Encoder.state failing_encoder) hello
                           (Encoder.ad failing_encoder) tag_final) = 0%Z)
    by reflexivity.
  destruct (@WriteAndClose_is_final_whatever_the_sink Model.sodium
              FailingWriter _ failing_encoder hello hello Hf Hrc)
    as (H1 & H2 & _ & H4).
  split; [exact H1|]. split; [exact H2|]. now rewrite H4.
Defined.

Lemma Read_count_bound_witness :
  Decoder.Read 100 (model_decoder sixteen_twice) (make 0)
  = Done (15, Some ErrDecryptSS,
          {| Decoder.in_ := {| pending := [] |};
             Decoder.state := Decoder.state (model_decoder sixteen_twice);
             Decoder.ad := []; Decoder.tag := SecretStreamTag_Message;
             Decoder.final := false |}, []) /\
  15 <= Nat.max (length (make 0)) (abytes - 2).
Proof.
  assert (H : Decoder.Read 100 (model_decoder sixteen_twice) (make 0)
              = Done (15, Some ErrDecryptSS,
                      {| Decoder.in_ := {| pending := [] |};
                         Decoder.state :=
                           Decoder.state (model_decoder sixteen_twice);
                         Decoder.ad := [];
                         Decoder.tag := SecretStreamTag_Message;
                         Decoder.final := false |}, [])) by reflexivity.
  split; [exact H|].
  exact (proj1 (@Read_count_bound Model.sodium ChunkReader _ _ _ _ _ _ _ _ H)).
Defined.

Lemma Read_ends_only_with_EOF_witness :
  Decoder.Read 0 model_decoder_second (make 5)
  = Done (5, Some EOF,
          {| Decoder.in_ := {| pending := [] |};
             Decoder.state := (18%Z : @State Model.sodium);
             Decoder.ad := []; Decoder.tag := SecretStreamTag_Message;
             Decoder.final := true |}, world) /\
  Some EOF = Some EOF /\
  SecretStreamTag_Message = fromCtag tag_final.
Proof.
  assert (H : Decoder.Read 0 model_decoder_second (make 5)
              = Done (5, Some EOF,
                      {| Decoder.in_ := {| pending := [] |};
                         Decoder.state := (18%Z : @State Model.sodium);
                         Decoder.ad := [];
                         Decoder.tag := SecretStreamTag_Message;
                         Decoder.final := true |}, world)) by reflexivity.
  split; [exact H|].
  apply (@Read_ends_only_with_EOF Model.sodium ChunkReader _ _ _ _ _ _ _ _
           (eq_refl : Decoder.final model_decoder_second = false) H).
  reflexivity.
Defined.

Lemma terminal_decoder_is_inert_witness :
  Decoder.final model_decoder_done = true /\
  read_all 3 model_decoder_done [5; 0]
  = Done ([ {| r_bytes := []; r_tag := SecretStreamTag_Message;
               r_err := Some ErrInvalidState |};
            {| r_bytes := []; r_tag := SecretStreamTag_Message;
               r_err := Some ErrInvalidState |} ],
          model_decoder_done).
Proof.
  split; [reflexivity|].
  apply (@terminal_decoder_is_inert Model.sodium ChunkReader _ 3 [5; 0]
           model_decoder_done).
  reflexivity.
Defined.

Lemma Read_replaces_source_error_witness :
  io_Read (Decoder.in_ (tail_decoder [[1; 2]%Z] (ErrIO 5))) (2 + 17)
  = ([1; 2]%Z, Some (ErrIO 5), {| tail_pending := []; tail_err := ErrIO 5 |}) /\
  Decoder.Read 0 (tail_decoder [[1; 2]%Z] (ErrIO 5)) (make 2)
  = Done (0, Some ErrDecryptSS,
          {| Decoder.in_ := {| tail_pending := []; tail_err := ErrIO 5 |};
             Decoder.state := Decoder.state (tail_decoder [[1; 2]%Z] (ErrIO 5));
             Decoder.ad := []; Decoder.tag := SecretStreamTag_Message;
             Decoder.final := false |}, make 2).
Proof.
  split; [reflexivity|].
  apply (@Read_replaces_source_error Model.sodium TailReader _ 0
           (tail_decoder [[1; 2]%Z] (ErrIO 5)) (make 2) [1; 2]%Z (ErrIO 5)
           {| tail_pending := []; tail_err := ErrIO 5 |}).
  - reflexivity.
  - reflexivity.
  - vm_compute; lia.
Defined.

Lemma Read_reads_once_witness :
  io_Read (Decoder.in_ (tail_decoder [hi_frame] EOF)) (2 + 17)
  = (hi_frame, Some EOF, {| tail_pending := []; tail_err := EOF |}) /\
  Decoder.Read 0 (tail_decoder [hi_frame] EOF) (make 2)
  = Done (2, Some EOF,
          {| Decoder.in_ := {| tail_pending := []; tail_err := EOF |};
             Decoder.state := (17%Z : @State Model.sodium);
             Decoder.ad := []; Decoder.tag := SecretStreamTag_Message;
             Decoder.final := false |}, [104; 105]%Z).
Proof.
  split; [reflexivity|].
  destruct (@Read_reads_once Model.sodium TailReader _ 0
              (tail_decoder [hi_frame] EOF) (make 2) hi_frame (Some EOF)
              {| tail_pending := []; tail_err := EOF |} 0%Z) as [H _].
  - vm_compute; lia.
  - reflexivity.
  - reflexivity.
  - vm_compute; lia.
  - reflexivity.
  - reflexivity.
  - discriminate.
  - exact H.
Defined.

Lemma MakeSecretStreamXCPDecoder_follows_init_pull_witness :
  length Model.key0 = keybytes /\
  length Model.hdr0 = headerbytes /\
  Decoder.MakeSecretStreamXCPDecoder Model.key0 {| pending := [hi_frame] |}
    Model.hdr0
  = Done (Some (model_decoder [hi_frame]), None).
Proof.
  split; [reflexivity|]. split; [reflexivity|].
  apply (@MakeSecretStreamXCPDecoder_follows_init_pull Model.sodium
           ChunkReader Model.key0 Model.hdr0 {| pending := [hi_frame] |}).
  - vm_compute; lia.
  - vm_compute; lia.
  - reflexivity.
  - reflexivity.
Defined.

Lemma MakeSecretStreamXCPEncoder_is_fresh_witness :
  Encoder.MakeSecretStreamXCPEncoder Model.key0 {| written := [] |}
  = Done model_encoder /\
  length (Encoder.Header model_encoder) = headerbytes /\
  Encoder.final model_encoder = false.
Proof.
  split; [reflexivity|].
  destruct (@MakeSecretStreamXCPEncoder_is_fresh Model.sodium BufferWriter _
              Model.key0 {| written := [] |} model_encoder model_encoder_made)
    as (_ & H2 & _ & _ & H5 & _).
  split; [exact H2|exact H5].
Defined.

Lemma MakeSecretStreamXCPKey_has_key_size_witness :
  0 < keybytes /\
  exists key,
    MakeSecretStreamXCPKey Model.key0 = Done key /\
    Length (SecretStreamXCPKey key) = Size (SecretStreamXCPKey key) /\
    (length Model.key0 = keybytes -> key = Model.key0).
Proof.
  split; [vm_compute; lia|].
  apply (@MakeSecretStreamXCPKey_has_key_size Model.sodium Model.key0).
  vm_compute; lia.
Defined.

Lemma Write_then_Read_witness :
  sodium_contract /\
  Decoder.Read 0 (model_decoder tag7_frames) (make 5)
  = Done (5, None,
          {| Decoder.in_ := {| pending := [] |};
             Decoder.state := (17%Z : @State Model.sodium);
             Decoder.ad := []; Decoder.tag := SecretStreamTag_Message;
             Decoder.final := false |}, hello).
Proof.
  split; [exact ModelFacts.model_contract|].
  apply (@Write_then_Read Model.sodium 0 model_encoder
           (model_decoder tag7_frames) 7%Z hello (make 5) []
           ModelFacts.model_contract); reflexivity.
Defined.
